(** * Simple-Blockchain: the ledger engine of [blockchain.py]

    A shallow embedding of the classes [Block] and [Blockchain] and proofs
    of the ledger's properties: balance replay, transaction admission,
    chain validation, ingestion of peer blocks and the longest-chain rule.

    Conventions of the embedding.
    - Python [int] is [Z]; [len] is [Z.of_nat (length _)].  Amounts and
      timestamps are Python numbers, floats when they come from the prompt
      or the clock; the ledger only stores, compares, adds and subtracts
      them, and they are read as integers here.  No property is stated that
      holds of integers by exact arithmetic and fails under rounding.
    - A [dict] with fixed keys is a record; the balance table, a [dict]
      keyed by user name, is a [gmap string Z].
    - A method of [Blockchain] is a computation in the monad [M]: it reads
      and updates [self] and either returns a value or raises.
    - [time.time()] is an input of the method that reads the clock;
      [time.localtime] accepts the value it returns.
    - [str.lower], [json.dumps(..., sort_keys=True).encode()],
      [hashlib.sha256(...).hexdigest()] and [time.localtime] are library
      functions; the development is parametric in them.
    - Logging, the console table, the per-user JSON files and the snapshot
      file are write-only collaborators of the ledger.  What they write is
      left out; what can make them raise on a block received from a peer,
      the formatting of the block's timestamp, is kept. *)

From Stdlib Require Import ZArith Lia Ascii String.
From stdpp Require Import gmap strings list fin_maps pretty.

Open Scope Z_scope.

(** ** Data model *)

(** The transaction [dict]: [{"sender": .., "recipient": .., "amount": ..}]. *)
Record Transaction : Type := mkTransaction {
  sender : string;
  recipient : string;
  amount : Z
}.

(** Attributes of a [Block] object. *)
Record Block : Type := mkBlock {
  index : Z;
  timestamp : Z;
  transaction : Transaction;
  previous_hash : string;
  hash : string
}.

(** The [dict] form of a block, as produced by [Block.to_dict] and sent by
    peers. *)
Record BlockDict : Type := mkBlockDict {
  d_index : Z;
  d_timestamp : Z;
  d_transaction : Transaction;
  d_previous_hash : string;
  d_hash : string
}.

(** The part of a [Blockchain] object the ledger operations depend on. *)
Record Blockchain : Type := mkBlockchain {
  user_id : string;
  chain : list Block
}.

(** [self.users] *)
Definition users : list string := ["alice"; "bob"; "charlie"; "dave"]%string.

(** ** Python primitives *)

Inductive exn : Type :=
| IndexError
| ValueError (msg : string)
| OverflowError
| OSError.

Inductive outcome (A : Type) : Type :=
| Return (a : A)
| Raise (e : exn).
Arguments Return {A} a.
Arguments Raise {A} e.

(** [len(l)] *)
Definition len {A : Type} (l : list A) : Z := Z.of_nat (length l).

(** [l[i]]: a negative index counts from the end; out of range is an
    [IndexError], rendered here as [None]. *)
Definition py_index {A : Type} (l : list A) (i : Z) : option A :=
  if decide (0 <= i < len l) then l !! Z.to_nat i
  else if decide (- len l <= i < 0) then l !! Z.to_nat (len l + i)
  else None.

(** [range(a, b)] *)
Definition range (a b : Z) : list Z :=
  map (fun k : nat => a + Z.of_nat k) (seq 0 (Z.to_nat (b - a))).

(** Sequencing of computations that may raise. *)
Definition obind {A B : Type} (o : outcome A) (k : A -> outcome B) : outcome B :=
  match o with
  | Return a => k a
  | Raise e => Raise e
  end.

(** [l[i]] as a computation. *)
Definition getitem {A : Type} (l : list A) (i : Z) : outcome A :=
  match py_index l i with
  | Some x => Return x
  | None => Raise IndexError
  end.

(** ** Methods as computations over [self] *)

Definition M (A : Type) : Type := Blockchain -> outcome A * Blockchain.

Definition ret {A : Type} (a : A) : M A := fun self => (Return a, self).

Definition raise {A : Type} (e : exn) : M A := fun self => (Raise e, self).

Definition bind {A B : Type} (c : M A) (k : A -> M B) : M B :=
  fun self =>
    match c self with
    | (Return a, self') => k a self'
    | (Raise e, self') => (Raise e, self')
    end.

(** Read [self.chain]. *)
Definition get_chain : M (list Block) := fun self => (Return (chain self), self).

(** Read [self.user_id]. *)
Definition get_user_id : M string := fun self => (Return (user_id self), self).

(** [self.chain = c] *)
Definition set_chain (c : list Block) : M unit :=
  fun self => (Return tt, {| user_id := user_id self; chain := c |}).

(** [self.chain.append(b)] *)
Definition chain_append (b : Block) : M unit :=
  fun self => (Return tt, {| user_id := user_id self; chain := chain self ++ [b] |}).

(** Lift a computation that does not touch [self]. *)
Definition lift {A : Type} (o : outcome A) : M A := fun self => (o, self).

Declare Scope py_scope.
Delimit Scope py_scope with py.
Notation "'let*' x ':=' c 'in' k" := (bind c (fun x => k))
  (at level 10, x name, c at level 100, k at level 200, only parsing)
  : py_scope.
Notation "'let+' x ':=' o 'in' k" := (obind o (fun x => k))
  (at level 10, x name, o at level 100, k at level 200, only parsing)
  : py_scope.
Open Scope py_scope.

Section Ledger.

(** [str.lower] *)
Variable lower : string -> string.

(** [json.dumps({"index": .., "timestamp": .., "transaction": ..,
    "previous_hash": ..}, sort_keys=True).encode()] *)
Variable block_string : Z -> Z -> Transaction -> string -> string.

(** [hashlib.sha256(s).hexdigest()] *)
Variable sha256_hexdigest : string -> string.

(** *** class Block *)

(** [Block.calculate_hash] *)
Definition calculate_hash (self : Block) : string :=
  sha256_hexdigest
    (block_string (index self) (timestamp self) (transaction self)
       (previous_hash self)).

(** [Block.__init__]: the hash is computed from the four other fields. *)
Definition Block_init (index : Z) (timestamp : Z) (transaction : Transaction)
    (previous_hash : string) : Block :=
  let self := mkBlock index timestamp transaction previous_hash ""%string in
  mkBlock index timestamp transaction previous_hash (calculate_hash self).

(** [Block.to_dict] *)
Definition to_dict (self : Block) : BlockDict :=
  mkBlockDict (index self) (timestamp self) (transaction self)
    (previous_hash self) (hash self).

(** [Block.from_dict]: builds the block, then overwrites the computed hash
    with the one stored in the [dict]. *)
Definition from_dict (block_dict : BlockDict) : Block :=
  let block :=
    Block_init (d_index block_dict) (d_timestamp block_dict)
      (d_transaction block_dict) (d_previous_hash block_dict) in
  mkBlock (index block) (timestamp block) (transaction block)
    (previous_hash block) (d_hash block_dict).

(** *** class Blockchain *)

(** The genesis transaction of [create_genesis_block]. *)
Definition genesis_transaction : Transaction :=
  mkTransaction "genesis" "genesis" 0.

(** [create_genesis_block]; [now] is the value of [time.time()]. *)
Definition create_genesis_block (now : Z) : M unit :=
  let genesis_block := Block_init 0 now genesis_transaction "0" in
  chain_append genesis_block.

(** [Blockchain.__init__] when no snapshot file exists: the chain starts
    empty and receives the genesis block. *)
Definition Blockchain_init (user_id : string) (now : Z) : Blockchain :=
  let self := mkBlockchain (lower user_id) [] in
  snd (create_genesis_block now self).

(** [get_latest_block]: [self.chain[-1]] *)
Definition get_latest_block : M Block :=
  let* c := get_chain in lift (getitem c (-1)).

(** The initial table of [calculate_balances]. *)
Definition initial_balances : gmap string Z :=
  <["alice"%string := 0]> (<["bob"%string := 0]>
    (<["charlie"%string := 0]> (<["dave"%string := 0]> ∅))).

(** The body of the loop of [calculate_balances], on one block. *)
Definition calculate_balances_body (balances : gmap string Z) (block : Block)
    : gmap string Z :=
  let tx := transaction block in
  let sender_l := lower (sender tx) in
  let recipient_l := lower (recipient tx) in
  let amount_v := amount tx in
  if decide (sender_l = "initial_balance"%string) then
    (* if recipient in balances: balances[recipient] = amount; continue *)
    match balances !! recipient_l with
    | Some _ => <[recipient_l := amount_v]> balances
    | None => balances
    end
  else
    (* if sender in balances: balances[sender] -= amount *)
    let balances1 :=
      match balances !! sender_l with
      | Some v => <[sender_l := v - amount_v]> balances
      | None => balances
      end in
    (* if recipient in balances: balances[recipient] += amount *)
    match balances1 !! recipient_l with
    | Some v => <[recipient_l := v + amount_v]> balances1
    | None => balances1
    end.

(** [calculate_balances]: the loop runs over [self.chain[1:]]. *)
Definition calculate_balances : M (gmap string Z) :=
  let* c := get_chain in
  ret (foldl calculate_balances_body initial_balances (drop 1 c)).

(** [is_transaction_valid] *)
Definition is_transaction_valid (tx : Transaction) : M bool :=
  let sender_l := lower (sender tx) in
  let amount_v := amount tx in
  if decide (sender_l = "genesis"%string) then ret true
  else if decide (sender_l = "initial_balance"%string) then ret true
  else
    let* balances := calculate_balances in
    (* sender in balances and balances[sender] >= amount *)
    match balances !! sender_l with
    | Some v => if decide (v >= amount_v) then ret true else ret false
    | None => ret false
    end.

(** The message of the [ValueError] raised by [add_transaction]. *)
Definition InsufficientFunds : exn :=
  ValueError "Transaction invalid: Insufficient funds".

(** [add_transaction]; [now] is the value of [time.time()].  The calls of
    [update_transaction_log] and [update_user_files] on the new block, whose
    timestamp is [now], return. *)
Definition add_transaction (sender recipient : string) (amount : Z) (now : Z)
    : M Block :=
  let tx := mkTransaction (lower sender) (lower recipient) amount in
  let* valid := is_transaction_valid tx in
  if negb valid then raise InsufficientFunds
  else
    let* previous_block := get_latest_block in
    let new_index := index previous_block + 1 in
    let new_block := Block_init new_index now tx (hash previous_block) in
    let* _ := chain_append new_block in
    ret new_block.

(** [set_initial_balance]; [now] is the value of [time.time()].  The method
    has no [return] statement: its value is Python's [None]. *)
Definition set_initial_balance (balance : Z) (now : Z) : M (option Block) :=
  let* uid := get_user_id in
  let tx := mkTransaction "initial_balance" uid balance in
  let* previous_block := get_latest_block in
  let new_index := index previous_block + 1 in
  let new_block := Block_init new_index now tx (hash previous_block) in
  let* _ := chain_append new_block in
  ret None.

(** The loop of [is_chain_valid] over the indices [ixs]. *)
Fixpoint is_chain_valid_loop (c : list Block) (ixs : list Z) : outcome bool :=
  match ixs with
  | [] => Return true
  | i :: ixs' =>
      let+ current_block := getitem c i in
      let+ previous_block := getitem c (i - 1) in
      if decide (hash current_block <> calculate_hash current_block)
      then Return false
      else if decide (previous_hash current_block <> hash previous_block)
      then Return false
      else is_chain_valid_loop c ixs'
  end.

(** [is_chain_valid] *)
Definition is_chain_valid : M bool :=
  let* c := get_chain in lift (is_chain_valid_loop c (range 1 (len c))).

(** [time.localtime(t)], as far as the ledger depends on it: the error
    raised when the timestamp [t] is formatted, [None] when [time.localtime]
    accepts [t]. *)
Variable localtime_error : Z -> option exn.

(** [time.strftime(fmt, time.localtime(t))] *)
Definition strftime_localtime (t : Z) : outcome unit :=
  match localtime_error t with
  | None => Return tt
  | Some e => Raise e
  end.

(** [update_transaction_log]: computes the balances, formats
    [block.timestamp] and appends a line to the log file. *)
Definition update_transaction_log (block : Block) : M unit :=
  let* balances := calculate_balances in
  lift (strftime_localtime (timestamp block)).

(** [update_user_files]: formats [block.timestamp] before anything else,
    then updates the JSON files of the sender and of the recipient. *)
Definition update_user_files (block : Block) : M unit :=
  lift (strftime_localtime (timestamp block)).

(** The loop of [update_all_user_files]. *)
Fixpoint update_all_user_files_loop (blocks : list Block) : M unit :=
  match blocks with
  | [] => ret tt
  | block :: rest =>
      let* _ := update_user_files block in
      update_all_user_files_loop rest
  end.

(** [update_all_user_files]: resets the JSON files of the four users, then
    calls [update_user_files] on the blocks of [self.chain[1:]]. *)
Definition update_all_user_files : M unit :=
  let* c := get_chain in update_all_user_files_loop (drop 1 c).

(** The checks of [add_block_from_peer]; [false] stands for the early
    [return False]. *)
Definition add_block_from_peer_verify (block : Block) : M bool :=
  let* c := get_chain in
  if decide (len c > 0) then
    let* latest_block := get_latest_block in
    if decide (index block <> index latest_block + 1) then ret false
    else if decide (previous_hash block <> hash latest_block) then ret false
    else
      let* valid := is_transaction_valid (transaction block) in
      if negb valid then ret false else ret true
  else ret true.

(** [add_block_from_peer] *)
Definition add_block_from_peer (block_dict : BlockDict) : M bool :=
  let block := from_dict block_dict in
  let* ok := add_block_from_peer_verify block in
  if ok then
    let* _ := chain_append block in
    let* _ := update_transaction_log block in
    let* _ := update_user_files block in
    ret true
  else ret false.

(** The inner loop of [resolve_conflicts] over the indices [ixs]: the value
    of [valid] when the loop ends or breaks. *)
Fixpoint peer_chain_valid_loop (peer_chain : list Block) (ixs : list Z)
    : outcome bool :=
  match ixs with
  | [] => Return true
  | i :: ixs' =>
      let+ cur := getitem peer_chain i in
      let+ prev := getitem peer_chain (i - 1) in
      if decide (previous_hash cur <> hash prev) then Return false
      else if decide (hash cur <> calculate_hash cur) then Return false
      else peer_chain_valid_loop peer_chain ixs'
  end.

(** The outer loop of [resolve_conflicts], threading [max_length] and
    [new_chain]. *)
Fixpoint resolve_conflicts_scan (peer_chains : list (list BlockDict))
    (max_length : Z) (new_chain : option (list Block))
    : outcome (Z * option (list Block)) :=
  match peer_chains with
  | [] => Return (max_length, new_chain)
  | peer_chain_dict :: rest =>
      let peer_chain := map from_dict peer_chain_dict in
      let length := len peer_chain in
      if decide (length > max_length) then
        let+ valid := peer_chain_valid_loop peer_chain (range 1 length) in
        if valid then resolve_conflicts_scan rest length (Some peer_chain)
        else resolve_conflicts_scan rest max_length new_chain
      else resolve_conflicts_scan rest max_length new_chain
  end.

(** [resolve_conflicts]; [if new_chain:] is false for [None] and for the
    empty list. *)
Definition resolve_conflicts (peer_chains : list (list BlockDict)) : M bool :=
  let* c := get_chain in
  let* r := lift (resolve_conflicts_scan peer_chains (len c) None) in
  match snd r with
  | Some (b :: bs) =>
      let* _ := set_chain (b :: bs) in
      let* _ := update_all_user_files in
      ret true
  | _ => ret false
  end.

(** *** Notions used to state the properties *)

(** A chain is structurally valid when every block after the first stores
    its own recomputed hash and the hash of the block before it. *)
Definition structurally_valid (c : list Block) : Prop :=
  forall (i : nat) (cur prev : Block),
    (0 < i)%nat -> c !! i = Some cur -> c !! (i - 1)%nat = Some prev ->
    hash cur = calculate_hash cur /\ previous_hash cur = hash prev.

(** The table of the known identities, all at balance 0. *)
Definition zero_balances : gmap string Z :=
  gset_to_gmap 0 (list_to_set users).

(** The effect of one transaction on the balance table, in terms of the
    roster of known identities: an [initial_balance] transaction sets the
    recipient's balance; any other one debits the sender and credits the
    recipient; identities outside the roster are skipped. *)
Definition replay_transaction (balances : gmap string Z) (tx : Transaction)
    : gmap string Z :=
  let s := lower (sender tx) in
  let r := lower (recipient tx) in
  if decide (s = "initial_balance"%string) then
    if decide (r ∈ users) then <[r := amount tx]> balances else balances
  else
    let debited :=
      if decide (s ∈ users)
      then alter (fun v => v - amount tx) s balances else balances in
    if decide (r ∈ users)
    then alter (fun v => v + amount tx) r debited else debited.

(** Replay of the transactions of the blocks at positions 1, 2, ... *)
Definition replay (c : list Block) : gmap string Z :=
  foldl replay_transaction zero_balances (transaction <$> drop 1 c).

(** The chains obtained from a fresh genesis block by successful calls of
    [add_transaction] and [set_initial_balance]. *)
Inductive produced : Blockchain -> Prop :=
| produced_genesis (uid : string) (now : Z) :
    produced (Blockchain_init uid now)
| produced_add_transaction (bc bc' : Blockchain) (s r : string) (a now : Z)
    (b : Block) :
    produced bc ->
    add_transaction s r a now bc = (Return b, bc') ->
    produced bc'
| produced_set_initial_balance (bc bc' : Blockchain) (balance now : Z)
    (v : option Block) :
    produced bc ->
    set_initial_balance balance now bc = (Return v, bc') ->
    produced bc'.

(** *** Further methods of [Blockchain] *)

(** [get_balance]; [None] is the default argument, which stands for
    [self.user_id].  The result is [balances.get(user_id.lower(), 0)]. *)
Definition get_balance (user : option string) : M Z :=
  let* name := match user with
               | None => get_user_id
               | Some u => ret u
               end in
  let* balances := calculate_balances in
  ret (default 0 (balances !! lower name)).

(** [Blockchain.to_dict]: the [dict] has the single key ["chain"], whose
    value is the list of the blocks' [dict]s. *)
Definition Blockchain_to_dict : M (list BlockDict) :=
  let* c := get_chain in ret (map to_dict c).

(** [Blockchain.from_dict] *)
Definition Blockchain_from_dict (blockchain_dict : list BlockDict) : M unit :=
  set_chain (map from_dict blockchain_dict).

(** *** Further notions used to state the properties *)

(** A chain whose blocks carry their own position as index and the hash
    of the block before them as [previous_hash]. *)
Definition indexed_and_linked (c : list Block) : Prop :=
  (forall (i : nat) (b : Block), c !! i = Some b -> index b = Z.of_nat i) /\
  (forall (i : nat) (cur prev : Block),
     (0 < i)%nat -> c !! i = Some cur -> c !! (i - 1)%nat = Some prev ->
     previous_hash cur = hash prev).

(** The chains a node reaches from a fresh genesis block by its own
    successful [add_transaction] and [set_initial_balance] calls and by
    calls of [add_block_from_peer], however these end. *)
Inductive grown : Blockchain -> Prop :=
| grown_genesis (uid : string) (now : Z) :
    grown (Blockchain_init uid now)
| grown_add_transaction (bc bc' : Blockchain) (s r : string) (a now : Z)
    (b : Block) :
    grown bc ->
    add_transaction s r a now bc = (Return b, bc') ->
    grown bc'
| grown_set_initial_balance (bc bc' : Blockchain) (balance now : Z)
    (v : option Block) :
    grown bc ->
    set_initial_balance balance now bc = (Return v, bc') ->
    grown bc'
| grown_add_block_from_peer (bc bc' : Blockchain) (block_dict : BlockDict)
    (result : outcome bool) :
    grown bc ->
    add_block_from_peer block_dict bc = (result, bc') ->
    grown bc'.

(** The chains built by the node's own calls when no amount is negative. *)
Inductive produced_nonneg : Blockchain -> Prop :=
| produced_nonneg_genesis (uid : string) (now : Z) :
    produced_nonneg (Blockchain_init uid now)
| produced_nonneg_add_transaction (bc bc' : Blockchain) (s r : string)
    (a now : Z) (b : Block) :
    produced_nonneg bc ->
    0 <= a ->
    add_transaction s r a now bc = (Return b, bc') ->
    produced_nonneg bc'
| produced_nonneg_set_initial_balance (bc bc' : Blockchain)
    (balance now : Z) (v : option Block) :
    produced_nonneg bc ->
    0 <= balance ->
    set_initial_balance balance now bc = (Return v, bc') ->
    produced_nonneg bc'.

End Ledger.

(** ** An instance to run the model on examples *)

(** [str.lower] on ASCII text. *)
Definition ascii_lower_char (a : ascii) : ascii :=
  let n := nat_of_ascii a in
  if decide (65 <= n <= 90)%nat then ascii_of_nat (n + 32) else a.

Fixpoint ascii_lower (s : string) : string :=
  match s with
  | EmptyString => EmptyString
  | String a s' => String (ascii_lower_char a) (ascii_lower s')
  end.

(** A serialisation of the four hashed fields, keys in sorted order. *)
Definition demo_block_string (index timestamp : Z) (tx : Transaction)
    (previous_hash : string) : string :=
  (pretty index +:+ "|" +:+ previous_hash +:+ "|" +:+ pretty timestamp
   +:+ "|" +:+ pretty (amount tx) +:+ "," +:+ recipient tx +:+ ","
   +:+ sender tx)%string.

(** A stand-in for the digest: a 32-bit rolling checksum, in decimal. *)
Fixpoint demo_checksum (s : string) (h : Z) : Z :=
  match s with
  | EmptyString => h
  | String a s' =>
      demo_checksum s' ((h * 31 + Z.of_nat (nat_of_ascii a)) mod 2 ^ 32)
  end.

Definition demo_digest (s : string) : string := pretty (demo_checksum s 7).

(** [time.localtime] on a platform with a 64-bit [time_t], in UTC: a
    timestamp outside [time_t] is an [OverflowError]; one whose year does
    not fit a C [int] is an [OSError]. *)
Definition demo_localtime_error (t : Z) : option exn :=
  if decide (- 2 ^ 63 <= t < 2 ^ 63) then
    if decide (-67768040609740800 <= t <= 67767976233532799) then None
    else Some OSError
  else Some OverflowError.

Definition demo_init : string -> Z -> Blockchain :=
  Blockchain_init ascii_lower demo_block_string demo_digest.


(** A node started by Alice, then funded with 500, then paying Bob 200. *)
Definition demo_genesis : Blockchain := demo_init "Alice" 1000.

Definition demo_funded : Blockchain :=
  snd (set_initial_balance demo_block_string demo_digest 500 1001
         demo_genesis).

Definition demo_sent : Blockchain :=
  snd (add_transaction ascii_lower demo_block_string demo_digest
         "alice" "Bob" 200 1002 demo_funded).

(** The block that pays Bob, as [add_transaction] builds it. *)
Definition demo_payment : Block :=
  Block_init demo_block_string demo_digest 2 1002
    (mkTransaction "alice" "bob" 200) "1251935973".

(** A block as a peer sends it after setting its own initial balance; it
    links to the genesis block of [demo_genesis]. *)
Definition demo_peer_block : BlockDict :=
  to_dict (Block_init demo_block_string demo_digest 1 1001
             (mkTransaction "initial_balance" "bob" 300) "2793772714").

(** A block from a peer whose transaction is sent by [genesis] to alice. *)
Definition demo_mint : BlockDict :=
  to_dict (Block_init demo_block_string demo_digest 1 1001
             (mkTransaction "genesis" "alice" 100) "2793772714").

Definition demo_mint_block : Block :=
  from_dict demo_block_string demo_digest demo_mint.

(** A second copy of the genesis transaction, placed after the first block. *)
Definition demo_regenesis : Block :=
  Block_init demo_block_string demo_digest 1 1001
    (genesis_transaction) "2793772714".

(** The alice entry of a balance table returned by a call. *)
Definition alice_balance (o : outcome (gmap string Z)) : option Z :=
  match o with
  | Return balances => balances !! "alice"%string
  | Raise _ => None
  end.


(** * The peer of [peer.py]

    The class [BlockchainPeer] owns a [Blockchain], the address table
    [peers] and the [dict] [connected_peers] from peer name to socket.  A
    [dict] is rendered by the list of its keys in insertion order; a socket
    is rendered by what matters of it here, whether a [send] on it succeeds.
    One call of a handler is modelled, run from its first to its last
    statement. *)

(** A message, after [json.loads]: the [dict] with its ["type"] and the one
    field the handlers read.  [None] stands for a field that is absent (or,
    for the block, an empty [dict]). *)
Inductive Message : Type :=
| transaction_message (block : option BlockDict)
| get_chain_message
| chain_message (chain : option (list BlockDict))
| other_message.

(** The attributes of a [BlockchainPeer] object that the handlers use. *)
Record BlockchainPeer : Type := mkBlockchainPeer {
  peer_user_id : string;
  port : Z;
  blockchain : Blockchain;
  peers : list (string * (string * Z));
  connected_peers : list string
}.

(** What a [send] on a broken socket raises, beside the ledger's errors. *)
Inductive peer_exn : Type :=
| LedgerError (e : exn)
| SocketError.

(** What [send_transaction] prints. *)
Inductive send_report : Type :=
| InvalidRecipient
| CannotSendToSelf
| AmountNotPositive
| TransactionFailed
| TransactionSuccessful (block : Block).

(** The address table written in [BlockchainPeer.__init__]. *)
Definition all_peers : list (string * (string * Z)) :=
  [("alice", ("127.0.0.1", 5001)); ("bob", ("127.0.0.1", 5002));
   ("charlie", ("127.0.0.1", 5003)); ("dave", ("127.0.0.1", 5004))]%string.

(** [del d[k]] and [d[k] = v] on the keys of a [dict]. *)
Definition dict_del (k : string) (keys : list string) : list string :=
  filter (fun x => x <> k) keys.

Definition dict_set (k : string) (keys : list string) : list string :=
  if decide (k ∈ keys) then keys else keys ++ [k].

(** The truth value of an optional string: [None] and [""] are false. *)
Definition truthy (o : option string) : bool :=
  match o with
  | Some s => if decide (s = ""%string) then false else true
  | None => false
  end.

Section Peer.

Variable lower : string -> string.
Variable block_string : Z -> Z -> Transaction -> string -> string.
Variable sha256_hexdigest : string -> string.
Variable localtime_error : Z -> option exn.

(** The port chosen in [BlockchainPeer.__init__]: [user_id] is the name as
    given, [self_user_id] the lower-cased name. *)
Definition assign_port (user_id self_user_id : string) (port : option Z)
    : outcome Z :=
  match port with
  | None =>
      if decide (self_user_id = "alice"%string) then Return 5001
      else if decide (self_user_id = "bob"%string) then Return 5002
      else if decide (self_user_id = "charlie"%string) then Return 5003
      else if decide (self_user_id = "dave"%string) then Return 5004
      else Raise (ValueError ("Unknown user_id: " +:+ user_id))
  | Some p => Return p
  end.

(** [BlockchainPeer.__init__], for a node without snapshot file; [now] is
    the value of [time.time()] read for the genesis block. *)
Definition BlockchainPeer_init (user_id : string) (port : option Z) (now : Z)
    : outcome BlockchainPeer :=
  let self_user_id := lower user_id in
  match assign_port user_id self_user_id port with
  | Raise e => Raise e
  | Return the_port =>
      let bc := Blockchain_init lower block_string sha256_hexdigest
                  self_user_id now in
      (* if self.user_id in self.peers: del self.peers[self.user_id] *)
      let the_peers :=
        filter (fun entry => fst entry <> self_user_id) all_peers in
      Return (mkBlockchainPeer self_user_id the_port bc the_peers [])
  end.

(** The handshake of [handle_peer_connection], up to the answer:
    [peer_id_field] is [peer_data.get('peer_id')]; the result is the status
    of the answer and the node afterwards. *)
Definition handle_handshake (peer_id_field : option string)
    (self : BlockchainPeer) : string * BlockchainPeer :=
  let peer_id := lower (default ""%string peer_id_field) in
  if decide (peer_id = ""%string \/ peer_id ∉ (fst <$> peers self))
  then ("error"%string, self)
  else
    ("connected"%string,
     mkBlockchainPeer (peer_user_id self) (port self) (blockchain self)
       (peers self) (dict_set peer_id (connected_peers self))).

(** The loop of [broadcast_transaction] over the snapshot [items] of
    [connected_peers]; [send_ok p] tells whether the [send] to [p] succeeds.
    The result is the [connected_peers] left and the messages delivered. *)
Fixpoint broadcast_loop (items : list string) (message : Message)
    (exclude : option string) (send_ok : string -> bool)
    (connected : list string) : list string * list (string * Message) :=
  match items with
  | [] => (connected, [])
  | peer_id :: rest =>
      if truthy exclude && bool_decide (Some peer_id = exclude)
      then broadcast_loop rest message exclude send_ok connected
      else if send_ok peer_id then
        let '(connected', sent) :=
          broadcast_loop rest message exclude send_ok connected in
        (connected', (peer_id, message) :: sent)
      else
        (* except: if peer_id in self.connected_peers: del ... *)
        let connected1 :=
          if decide (peer_id ∈ connected) then dict_del peer_id connected
          else connected in
        broadcast_loop rest message exclude send_ok connected1
  end.

(** [broadcast_transaction] *)
Definition broadcast_transaction (block_dict : BlockDict)
    (exclude : option string) (send_ok : string -> bool)
    (self : BlockchainPeer) : BlockchainPeer * list (string * Message) :=
  let message := transaction_message (Some block_dict) in
  let '(connected, sent) :=
    broadcast_loop (connected_peers self) message exclude send_ok
      (connected_peers self) in
  (mkBlockchainPeer (peer_user_id self) (port self) (blockchain self)
     (peers self) connected, sent).

(** The node with its ledger replaced. *)
Definition with_blockchain (self : BlockchainPeer) (bc : Blockchain)
    : BlockchainPeer :=
  mkBlockchainPeer (peer_user_id self) (port self) bc (peers self)
    (connected_peers self).

(** [process_peer_message]; [reply_ok] tells whether a [send] on the socket
    the message came from succeeds.  The result is what the call raises, if
    anything, the node afterwards and the messages delivered. *)
Definition process_peer_message (message : Message) (peer_id : string)
    (reply_ok : bool) (send_ok : string -> bool) (self : BlockchainPeer)
    : option peer_exn * BlockchainPeer * list (string * Message) :=
  match message with
  | transaction_message (Some block_dict) =>
      match add_block_from_peer lower block_string sha256_hexdigest
              localtime_error block_dict (blockchain self) with
      | (Return success, bc') =>
          if success then
            let '(self', sent) :=
              broadcast_transaction block_dict (Some peer_id) send_ok
                (with_blockchain self bc') in
            (None, self', sent)
          else (None, with_blockchain self bc', [])
      | (Raise e, bc') => (Some (LedgerError e), with_blockchain self bc', [])
      end
  | transaction_message None => (None, self, [])
  | get_chain_message =>
      let response :=
        chain_message (Some (map to_dict (chain (blockchain self)))) in
      if reply_ok then (None, self, [(peer_id, response)])
      else (Some SocketError, self, [])
  | chain_message c =>
      let peer_chain := default [] c in
      if decide (len peer_chain > len (chain (blockchain self))) then
        match resolve_conflicts block_string sha256_hexdigest
                localtime_error [peer_chain] (blockchain self) with
        | (Return _, bc') => (None, with_blockchain self bc', [])
        | (Raise e, bc') =>
            (Some (LedgerError e), with_blockchain self bc', [])
        end
      else (None, self, [])
  | other_message => (None, self, [])
  end.

(** [send_transaction]; [recipient_input] is the line typed for the
    recipient and [amount_input] the amount typed, [None] when [float]
    rejects it.  The result is what the call raises or prints, the node
    afterwards and the messages delivered. *)
Definition send_transaction (recipient_input : string)
    (amount_input : option Z) (now : Z) (send_ok : string -> bool)
    (self : BlockchainPeer)
    : (peer_exn + send_report) * BlockchainPeer * list (string * Message) :=
  let recipient := lower recipient_input in
  if decide (recipient ∉ users) then (inr InvalidRecipient, self, [])
  else if decide (recipient = peer_user_id self)
  then (inr CannotSendToSelf, self, [])
  else
    match amount_input with
    | None => (inr TransactionFailed, self, [])
    | Some amount =>
        if decide (amount <= 0) then (inr AmountNotPositive, self, [])
        else
          match add_transaction lower block_string sha256_hexdigest
                  (peer_user_id self) recipient amount now
                  (blockchain self) with
          | (Return block, bc') =>
              let '(self', sent) :=
                broadcast_transaction (to_dict block) None send_ok
                  (with_blockchain self bc') in
              (inr (TransactionSuccessful block), self', sent)
          | (Raise (ValueError _), bc') =>
              (inr TransactionFailed, with_blockchain self bc', [])
          | (Raise e, bc') =>
              (inl (LedgerError e), with_blockchain self bc', [])
          end
    end.

End Peer.

(** Bob's node when it holds the same chain as Alice's. *)
Definition demo_bob_genesis : Blockchain :=
  mkBlockchain "bob" (chain demo_genesis).

Definition demo_bob_funded : Blockchain :=
  mkBlockchain "bob" (chain demo_funded).

(** Alice's node after it has accepted [demo_peer_block]. *)
Definition demo_received : Blockchain :=
  snd (add_block_from_peer ascii_lower demo_block_string demo_digest
    demo_localtime_error
         demo_peer_block demo_genesis).

(** A block from a peer that passes the three checks on [demo_genesis] and
    carries the timestamp 10^20. *)
Definition demo_late_block : BlockDict :=
  to_dict (Block_init demo_block_string demo_digest 1 (10 ^ 20)
             (mkTransaction "initial_balance" "bob" 300) "2793772714").

(** Alice's peer, connected to bob and charlie. *)
Definition demo_peer : BlockchainPeer :=
  mkBlockchainPeer "alice" 5001 demo_genesis
    (filter (fun entry => fst entry <> "alice"%string) all_peers)
    ["bob"; "charlie"]%string.

(** * Properties *)

(** ** Facts that do not depend on the library functions *)

Lemma elem_of_users (u : string) :
  u ∈ users <->
  u = "alice"%string \/ u = "bob"%string \/ u = "charlie"%string
  \/ u = "dave"%string.
Proof. unfold users. rewrite !elem_of_cons, elem_of_nil. tauto. Qed.

Lemma elem_of_all_peers (name host : string) (p : Z) :
  (name, (host, p)) ∈ all_peers <->
  host = "127.0.0.1"%string /\
  ((name = "alice"%string /\ p = 5001) \/ (name = "bob"%string /\ p = 5002) \/
   (name = "charlie"%string /\ p = 5003) \/ (name = "dave"%string /\ p = 5004)).
Proof.
  unfold all_peers. rewrite !elem_of_cons, elem_of_nil. split.
  - intros [H|[H|[H|[H|H]]]]; [| | | |done]; injection H as -> -> ->; tauto.
  - intros [-> [[-> ->]|[[-> ->]|[[-> ->]|[-> ->]]]]]; tauto.
Qed.

(** The port a known identity listens on is the port the table gives for
    it. *)
Lemma assign_port_all_peers (orig name : string) (p : Z) :
  name ∈ users ->
  (assign_port orig name None = Return p
   <-> (name, ("127.0.0.1"%string, p)) ∈ all_peers).
Proof.
  intros Hu. rewrite elem_of_all_peers. apply elem_of_users in Hu.
  destruct Hu as [-> | [-> | [-> | ->]]]; simpl; split;
    try (intros [= <-]; split; [done|]; tauto);
    intros [_ [[? ->] | [[? ->] | [[? ->] | [? ->]]]]]; done.
Qed.

Lemma assign_port_unknown (orig name : string) :
  name ∉ users ->
  assign_port orig name None
  = Raise (ValueError ("Unknown user_id: " +:+ orig)).
Proof.
  intros Hu. rewrite elem_of_users in Hu. unfold assign_port.
  repeat (case_decide; [tauto|]). done.
Qed.

Lemma elem_of_peer_names (me name : string) :
  name ∈ (fst <$> filter (fun entry => fst entry <> me) all_peers)
  <-> name ∈ users /\ name <> me.
Proof.
  rewrite list_elem_of_fmap. split.
  - intros ([n [h p]] & -> & Hin). apply list_elem_of_filter in Hin as [? Hin].
    apply elem_of_all_peers in Hin as [_ Hin]. split; [|done].
    apply elem_of_users. simpl. tauto.
  - intros [Hu Hne]. apply elem_of_users in Hu.
    assert (exists p, (name, ("127.0.0.1"%string, p)) ∈ all_peers) as [p Hp].
    { destruct Hu as [-> | [-> | [-> | ->]]]; eexists; apply elem_of_all_peers;
        (split; [done|]); [left|right; left|right; right; left
                          |right; right; right]; done. }
    exists (name, ("127.0.0.1"%string, p)). split; [done|].
    apply list_elem_of_filter. by split.
Qed.

(** *** Broadcast *)

Lemma elem_of_dict_del (k p : string) (keys : list string) :
  p ∈ dict_del k keys <-> p ∈ keys /\ p <> k.
Proof. unfold dict_del. rewrite list_elem_of_filter. tauto. Qed.

(** The loop delivers the message to the peers of the snapshot that are not
    excluded and whose socket works, and removes from [connected_peers] the
    peers of the snapshot that are not excluded and whose socket fails. *)
Lemma broadcast_loop_spec (items : list string) (message : Message)
    (exclude : option string) (send_ok : string -> bool)
    (connected : list string) :
  let excluded p := truthy exclude = true /\ Some p = exclude in
  let r := broadcast_loop items message exclude send_ok connected in
  (forall p m, (p, m) ∈ snd r <->
     m = message /\ p ∈ items /\ send_ok p = true /\ ~ excluded p) /\
  (forall p, p ∈ fst r <->
     p ∈ connected /\ ~ (p ∈ items /\ send_ok p = false /\ ~ excluded p)) /\
  (NoDup items -> NoDup (fst <$> snd r)).
Proof.
  intros excluded. revert connected.
  induction items as [|q rest IH]; intros connected; simpl.
  - split; [|split].
    + intros p m. rewrite elem_of_nil. split; [done|].
      intros (_ & Hp & _). by apply elem_of_nil in Hp.
    + intros p. split; [|tauto]. intros Hp. split; [done|].
      intros (Hq & _). by apply elem_of_nil in Hq.
    + intros _. apply NoDup_nil_2.
  - destruct (truthy exclude && bool_decide (Some q = exclude)) eqn:Hex.
    + apply andb_true_iff in Hex as [Ht Hq]. apply bool_decide_eq_true in Hq.
      destruct (IH connected) as (IHs & IHc & IHn).
      split; [|split].
      * intros p m. rewrite IHs, elem_of_cons. split; [tauto|].
        intros (? & [->|?] & ? & Hne); [|tauto]. exfalso. by apply Hne.
      * intros p. rewrite IHc, elem_of_cons. split.
        { intros [? Hn]. split; [done|].
          intros ([->|?] & ? & Hne); [by apply Hne|tauto]. }
        { intros [? Hn]. split; [done|]. intros (? & ? & ?). apply Hn. tauto. }
      * intros Hnd. apply NoDup_cons in Hnd as [_ Hnd]. by apply IHn.
    + assert (~ excluded q) as Hnex.
      { intros [Ht Hq]. rewrite Ht in Hex. simpl in Hex.
        by apply bool_decide_eq_false in Hex. }
      destruct (send_ok q) eqn:Hsend.
      * destruct (IH connected) as (IHs & IHc & IHn).
        destruct (broadcast_loop rest message exclude send_ok connected)
          as [connected' sent] eqn:Hloop. simpl in *.
        split; [|split].
        { intros p m. rewrite elem_of_cons, IHs, elem_of_cons. split.
          - intros [[= -> ->]|?]; [tauto|tauto].
          - intros (-> & [->|?] & ? & ?); [by left|right; tauto]. }
        { intros p. rewrite IHc, elem_of_cons. split.
          - intros [? Hn]. split; [done|].
            intros ([->|?] & Hf & ?); [congruence|tauto].
          - intros [? Hn]. split; [done|]. intros (? & ? & ?).
            apply Hn. tauto. }
        { intros Hnd. apply NoDup_cons in Hnd as [Hq Hnd].
          apply NoDup_cons. split; [|by apply IHn].
          rewrite list_elem_of_fmap. intros ([p m] & -> & Hin).
          apply IHs in Hin. simpl in Hq. tauto. }
      * set (connected1 := if decide (q ∈ connected)
                           then dict_del q connected else connected).
        assert (forall p, p ∈ connected1 <-> p ∈ connected /\ p <> q) as Hc1.
        { intros p. unfold connected1.
          destruct (decide (q ∈ connected)) as [Hq|Hq].
          - apply elem_of_dict_del.
          - split; [|tauto]. intros Hp. split; [done|]. by intros ->. }
        destruct (IH connected1) as (IHs & IHc & IHn).
        split; [|split].
        { intros p m. rewrite IHs, elem_of_cons. split; [tauto|].
          intros (? & [->|?] & ? & ?); [congruence|tauto]. }
        { intros p. rewrite IHc, Hc1, elem_of_cons. split.
          - intros [[? Hpq] Hn]. split; [done|].
            intros ([->|?] & ? & ?); [done|tauto].
          - intros [? Hn]. split; [split; [done|]|].
            + intros ->. apply Hn. tauto.
            + intros (? & ? & ?). apply Hn. tauto. }
        { intros Hnd. apply NoDup_cons in Hnd as [_ Hnd]. by apply IHn. }
Qed.

(** X18: [broadcast_transaction] delivers the block exactly to the connected
    peers whose socket works, the excluded peer apart; it delivers it once
    to each; it removes from [connected_peers] exactly the peers it tried
    and whose socket failed, and it leaves the ledger alone. *)
Theorem broadcast_transaction_delivery (block_dict : BlockDict)
    (exclude : option string) (send_ok : string -> bool)
    (self : BlockchainPeer) :
  NoDup (connected_peers self) ->
  let excluded p := truthy exclude = true /\ Some p = exclude in
  let r := broadcast_transaction block_dict exclude send_ok self in
  (forall p m, (p, m) ∈ snd r <->
     m = transaction_message (Some block_dict) /\
     p ∈ connected_peers self /\ send_ok p = true /\ ~ excluded p) /\
  NoDup (fst <$> snd r) /\
  (forall p, p ∈ connected_peers (fst r) <->
     p ∈ connected_peers self /\ (send_ok p = true \/ excluded p)) /\
  blockchain (fst r) = blockchain self /\
  peers (fst r) = peers self.
Proof.
  intros Hnd excluded r.
  destruct (broadcast_loop_spec (connected_peers self)
              (transaction_message (Some block_dict)) exclude send_ok
              (connected_peers self)) as (Hs & Hc & Hn).
  subst r. unfold broadcast_transaction.
  destruct (broadcast_loop _ _ _ _ _) as [connected sent]. simpl in *.
  split; [exact Hs|]. split; [by apply Hn|]. split; [|done].
  intros p. rewrite Hc. split.
  - intros [Hp Hno]. split; [done|].
    destruct (send_ok p) eqn:Hsend; [by left|]. right.
    destruct (truthy exclude) eqn:Ht.
    + destruct (decide (Some p = exclude)); [done|].
      exfalso. apply Hno. split; [done|]. split; [done|]. by intros [_ ?].
    + exfalso. apply Hno. split; [done|]. split; [done|]. by intros [? _].
  - intros [Hp Hok]. split; [done|]. intros (_ & Hf & Hne).
    destruct Hok as [Hok|Hex]; [congruence|done].
Qed.

Section Properties.

Variable lower : string -> string.
Variable block_string : Z -> Z -> Transaction -> string -> string.
Variable sha256_hexdigest : string -> string.
Variable localtime_error : Z -> option exn.

(** A property depends on the library functions its statement names. *)
Set Default Proof Using "Type".

(** Forget the library functions the goal does not name. *)
Local Ltac forget_unnamed :=
  try clear localtime_error; try clear sha256_hexdigest;
  try clear block_string; try clear lower.

Local Abbreviation calculate_hash :=
  (calculate_hash block_string sha256_hexdigest).
Local Abbreviation Block_init := (Block_init block_string sha256_hexdigest).
Local Abbreviation from_dict := (from_dict block_string sha256_hexdigest).
Local Abbreviation Blockchain_init :=
  (Blockchain_init lower block_string sha256_hexdigest).
Local Abbreviation calculate_balances_body := (calculate_balances_body lower).
Local Abbreviation calculate_balances := (calculate_balances lower).
Local Abbreviation is_transaction_valid := (is_transaction_valid lower).
Local Abbreviation add_transaction :=
  (add_transaction lower block_string sha256_hexdigest).
Local Abbreviation set_initial_balance :=
  (set_initial_balance block_string sha256_hexdigest).
Local Abbreviation is_chain_valid_loop :=
  (is_chain_valid_loop block_string sha256_hexdigest).
Local Abbreviation is_chain_valid :=
  (is_chain_valid block_string sha256_hexdigest).
Local Abbreviation add_block_from_peer_verify :=
  (add_block_from_peer_verify lower).
Local Abbreviation strftime_localtime := (strftime_localtime localtime_error).
Local Abbreviation update_transaction_log :=
  (update_transaction_log lower localtime_error).
Local Abbreviation update_user_files := (update_user_files localtime_error).
Local Abbreviation update_all_user_files_loop :=
  (update_all_user_files_loop localtime_error).
Local Abbreviation update_all_user_files :=
  (update_all_user_files localtime_error).
Local Abbreviation add_block_from_peer :=
  (add_block_from_peer lower block_string sha256_hexdigest localtime_error).
Local Abbreviation peer_chain_valid_loop :=
  (peer_chain_valid_loop block_string sha256_hexdigest).
Local Abbreviation resolve_conflicts_scan :=
  (resolve_conflicts_scan block_string sha256_hexdigest).
Local Abbreviation resolve_conflicts :=
  (resolve_conflicts block_string sha256_hexdigest localtime_error).
Local Abbreviation structurally_valid :=
  (structurally_valid block_string sha256_hexdigest).
Local Abbreviation replay_transaction := (replay_transaction lower).
Local Abbreviation replay := (replay lower).
Local Abbreviation produced :=
  (produced lower block_string sha256_hexdigest).

(** ** Indexing and ranges *)

Lemma len_app {A : Type} (l1 l2 : list A) : len (l1 ++ l2) = len l1 + len l2.
Proof. unfold len. rewrite length_app. lia. Qed.

Lemma len_nonneg {A : Type} (l : list A) : 0 <= len l.
Proof. unfold len. lia. Qed.

Lemma len_map {A B : Type} (f : A -> B) (l : list A) : len (map f l) = len l.
Proof. unfold len. by rewrite length_map. Qed.

(** A non-negative index in range reads the list at that position. *)
Lemma py_index_nat {A : Type} (l : list A) (i : Z) :
  0 <= i < len l -> py_index l i = l !! Z.to_nat i.
Proof. intros Hi. unfold py_index. by rewrite decide_True. Qed.

(** [l[-1]] is the last element; it raises on the empty list. *)
Lemma py_index_last {A : Type} (l : list A) : py_index l (-1) = last l.
Proof.
  unfold py_index. rewrite decide_False by lia.
  destruct l as [|x l] using rev_ind.
  - by rewrite decide_False by (unfold len; simpl; lia).
  - rewrite decide_True by (rewrite len_app; pose proof (len_nonneg l);
      unfold len at 2; simpl; lia).
    rewrite last_snoc, len_app.
    replace (Z.to_nat (len l + len [x] + -1)) with (length l)
      by (unfold len; simpl; lia).
    by rewrite list_lookup_middle.
Qed.

Lemma elem_of_range (a b i : Z) : i ∈ range a b <-> a <= i < b.
Proof.
  unfold range. rewrite list_elem_of_fmap. split.
  - intros (k & -> & Hk). apply elem_of_seq in Hk. lia.
  - intros Hi. exists (Z.to_nat (i - a)). split; [lia|].
    apply elem_of_seq. lia.
Qed.

(** ** The validation loops *)

Lemma getitem_nat {A : Type} (l : list A) (i : Z) :
  0 <= i < len l -> exists x, l !! Z.to_nat i = Some x /\ getitem l i = Return x.
Proof.
  intros Hi. destruct (lookup_lt_is_Some_2 l (Z.to_nat i)) as [x Hx].
  { unfold len in Hi. lia. }
  exists x. split; [done|]. unfold getitem. by rewrite py_index_nat, Hx.
Qed.

(** The two loops test the same two conditions, in opposite orders. *)
Lemma peer_chain_valid_loop_eq (c : list Block) (ixs : list Z) :
  peer_chain_valid_loop c ixs = is_chain_valid_loop c ixs.
Proof.
  induction ixs as [|i ixs IH]; simpl; [done|].
  destruct (getitem c i) as [cur|]; simpl; [|done].
  destruct (getitem c (i - 1)) as [prev|]; simpl; [|done].
  rewrite IH. repeat case_decide; done.
Qed.

(** Over indices that are in range the loop never raises, and it answers
    [true] exactly when both conditions hold at every index. *)
Lemma is_chain_valid_loop_spec (c : list Block) (ixs : list Z) :
  (forall i, i ∈ ixs -> 1 <= i < len c) ->
  exists b : bool,
    is_chain_valid_loop c ixs = Return b /\
    (b = true <->
     forall i cur prev, i ∈ ixs ->
       c !! Z.to_nat i = Some cur -> c !! Z.to_nat (i - 1) = Some prev ->
       hash cur = calculate_hash cur /\ previous_hash cur = hash prev).
Proof.
  induction ixs as [|i ixs IH]; intros Hin; simpl.
  - exists true. split; [done|]. split; [|done].
    intros _ i cur prev Hi. by apply elem_of_nil in Hi.
  - destruct IH as (b & Hb & Hspec).
    { intros j Hj. apply Hin. by right. }
    assert (1 <= i < len c) as Hi by (apply Hin; left).
    destruct (getitem_nat c i) as (cur & Hcur & ->); [lia|].
    destruct (getitem_nat c (i - 1)) as (prev & Hprev & ->); [lia|].
    simpl. destruct (decide (hash cur <> calculate_hash cur)) as [Hh|Hh].
    { exists false. split; [done|]. split; [done|]. intros Hall.
      destruct (Hall i cur prev) as [? _]; [by left|done|done|done]. }
    destruct (decide (previous_hash cur <> hash prev)) as [Hp|Hp].
    { exists false. split; [done|]. split; [done|]. intros Hall.
      destruct (Hall i cur prev) as [_ ?]; [by left|done|done|done]. }
    exists b. split; [done|]. rewrite Hspec. split.
    + intros Hall j cur' prev' Hj Hc Hpv.
      apply elem_of_cons in Hj as [->|Hj]; [|by eapply Hall].
      rewrite Hcur in Hc. rewrite Hprev in Hpv. simplify_eq.
      split; [by destruct (decide (hash cur' = calculate_hash cur'))
             |by destruct (decide (previous_hash cur' = hash prev'))].
    + intros Hall j cur' prev' Hj. apply Hall. by right.
Qed.

(** Over [range(1, len(c))] the loop decides structural validity. *)
Lemma is_chain_valid_loop_range (c : list Block) :
  exists b : bool,
    is_chain_valid_loop c (range 1 (len c)) = Return b /\
    (b = true <-> structurally_valid c).
Proof.
  destruct (is_chain_valid_loop_spec c (range 1 (len c))) as (b & Hb & Hspec).
  { intros i Hi. by apply elem_of_range in Hi. }
  exists b. split; [done|]. rewrite Hspec. split.
  - intros Hall i cur prev Hi Hcur Hprev.
    apply (Hall (Z.of_nat i)).
    + apply elem_of_range. apply lookup_lt_Some in Hcur. unfold len. lia.
    + by rewrite Nat2Z.id.
    + by replace (Z.to_nat (Z.of_nat i - 1)) with (i - 1)%nat by lia.
  - intros Hvalid i cur prev Hi Hcur Hprev.
    apply elem_of_range in Hi.
    apply (Hvalid (Z.to_nat i)); [lia|done|].
    by replace (Z.to_nat i - 1)%nat with (Z.to_nat (i - 1)) by lia.
Qed.

(** ** Read-only methods leave [self] alone *)

Lemma get_latest_block_run (bc : Blockchain) :
  get_latest_block bc =
  (match last (chain bc) with Some b => Return b | None => Raise IndexError end,
   bc).
Proof.
  unfold get_latest_block, bind, get_chain, lift, getitem.
  by rewrite py_index_last.
Qed.

Lemma calculate_balances_run (bc : Blockchain) :
  calculate_balances bc =
  (Return (foldl calculate_balances_body initial_balances (drop 1 (chain bc))),
   bc).
Proof. reflexivity. Qed.

(** ** The balance table *)

Lemma insert_as_alter (m : gmap string Z) (k : string) (v : Z) (f : Z -> Z) :
  m !! k = Some v -> <[k := f v]> m = alter f k m.
Proof.
  intros Hk. apply map_eq. intros j. rewrite lookup_alter, lookup_insert.
  case_decide; subst; [by rewrite Hk|done].
Qed.

Lemma initial_balances_zero : initial_balances = zero_balances.
Proof. by vm_compute. Qed.

Lemma dom_zero_balances : dom zero_balances = list_to_set users.
Proof. unfold zero_balances. by rewrite dom_gset_to_gmap. Qed.

Lemma known_lookup (m : gmap string Z) (k : string) :
  dom m = list_to_set users -> (k ∈ users <-> is_Some (m !! k)).
Proof.
  intros Hdom. rewrite <- elem_of_dom, Hdom. by rewrite elem_of_list_to_set.
Qed.

(** On a table whose keys are the roster, the loop body is the replay of the
    block's transaction. *)
Lemma calculate_balances_body_replay (m : gmap string Z) (b : Block) :
  dom m = list_to_set users ->
  calculate_balances_body m b = replay_transaction m (transaction b).
Proof.
  intros Hdom. unfold calculate_balances_body,
    replay_transaction.
  set (s := lower (sender (transaction b))).
  set (r := lower (recipient (transaction b))).
  set (a := amount (transaction b)).
  assert (forall (m' : gmap string Z) k, dom m' = list_to_set users ->
    forall f, match m' !! k with Some v => <[k := f v]> m' | None => m' end
              = if decide (k ∈ users) then alter f k m' else m') as Hstep.
  { intros m' k Hdom' f. pose proof (known_lookup m' k Hdom') as Hk.
    destruct (m' !! k) as [v|] eqn:Hl.
    - rewrite decide_True by (apply Hk; eauto). by apply insert_as_alter.
    - rewrite decide_False; [done|]. intros Hin. apply Hk in Hin.
      by destruct Hin. }
  case_decide.
  - pose proof (known_lookup m r Hdom) as Hk.
    destruct (m !! r) as [v|] eqn:Hl.
    + by rewrite decide_True by (apply Hk; eauto).
    + rewrite decide_False; [done|]. intros Hin. apply Hk in Hin.
      by destruct Hin.
  - rewrite (Hstep m s Hdom (fun v => v - a)).
    apply (Hstep _ r).
    case_decide; [|done]. by rewrite dom_alter_L.
Qed.

Lemma dom_replay_transaction (m : gmap string Z) (tx : Transaction) :
  dom m = list_to_set users ->
  dom (replay_transaction m tx) = list_to_set users.
Proof.
  intros Hdom. unfold replay_transaction.
  repeat case_decide; rewrite ?dom_alter_L; try done.
  rewrite dom_insert_lookup_L; [done|].
  by apply known_lookup.
Qed.

Lemma foldl_body_replay (l : list Block) (m : gmap string Z) :
  dom m = list_to_set users ->
  foldl calculate_balances_body m l = foldl replay_transaction m (transaction <$> l)
  /\ dom (foldl calculate_balances_body m l) = list_to_set users.
Proof.
  revert m. induction l as [|b l IH]; intros m Hdom; simpl; [done|].
  rewrite calculate_balances_body_replay by done.
  apply IH. by apply dom_replay_transaction.
Qed.

Lemma structurally_valid_app_l (c later : list Block) :
  structurally_valid (c ++ later) -> structurally_valid c.
Proof.
  intros Hv i cur prev Hi Hcur Hprev.
  apply (Hv i); [done| |]; by apply lookup_app_l_Some.
Qed.

Lemma genesis_not_user : "genesis"%string ∉ users.
Proof.
  unfold users. rewrite !elem_of_cons, elem_of_nil. intuition discriminate.
Qed.

(** A transaction sent by [genesis] only credits its recipient. *)
Lemma calculate_balances_body_genesis (m : gmap string Z) (b : Block) :
  dom m = list_to_set users ->
  lower (sender (transaction b)) = "genesis"%string ->
  calculate_balances_body m b =
  alter (fun v => v + amount (transaction b))
    (lower (recipient (transaction b))) m.
Proof.
  intros Hdom Hs. rewrite calculate_balances_body_replay by done.
  unfold replay_transaction. rewrite Hs.
  rewrite decide_False by done.
  rewrite (decide_False (P := "genesis"%string ∈ users))
    by apply genesis_not_user.
  case_decide as Hr; [done|]. symmetry. apply alter_id.
  intros x Hx. exfalso. apply Hr. apply (known_lookup m); eauto.
Qed.

(** ** The claims about balances and validity *)

(** C5: [is_chain_valid] returns [True] if and only if every block at an
    index [i > 0] stores its recomputed hash and has [previous_hash] equal to
    the hash of the block at [i - 1]; it never raises and leaves the chain
    as it was; once a mismatch has made it answer [False], no block placed
    after the mismatch changes that answer. *)
Theorem is_chain_valid_iff (bc : Blockchain) :
  exists b : bool,
    is_chain_valid bc = (Return b, bc) /\
    (b = true <->
     forall (i : nat) (cur prev : Block),
       (0 < i)%nat ->
       chain bc !! i = Some cur -> chain bc !! (i - 1)%nat = Some prev ->
       hash cur = calculate_hash cur /\ previous_hash cur = hash prev) /\
    (b = false ->
     forall later : list Block,
       fst (is_chain_valid (mkBlockchain (user_id bc) (chain bc ++ later)))
       = Return false).
Proof.
  destruct (is_chain_valid_loop_range (chain bc)) as (b & Hb & Hspec).
  exists b. split; [|split].
  - unfold is_chain_valid, bind, get_chain, lift. by rewrite Hb.
  - exact Hspec.
  - intros -> later.
    destruct (is_chain_valid_loop_range (chain bc ++ later))
      as (b' & Hb' & Hspec').
    unfold is_chain_valid, bind, get_chain, lift. simpl.
    rewrite Hb'. simpl. destruct b'; [|done].
    assert (false = true); [|done].
    apply Hspec. apply structurally_valid_app_l with later. by apply Hspec'.
Qed.

(** C4: [calculate_balances] returns a table whose keys are exactly alice,
    bob, charlie and dave; the table is the replay, from all balances at 0,
    of the transactions of the blocks at positions 1, 2, ...: a transaction
    whose (lower-cased) sender is [initial_balance] sets the balance of a
    known recipient, any other debits a known sender and credits a known
    recipient, and unknown identities are skipped.  For a chain that holds
    only the genesis block every known identity has balance 0. *)
Theorem calculate_balances_replay (bc : Blockchain) :
  exists balances : gmap string Z,
    calculate_balances bc = (Return balances, bc) /\
    dom balances = list_to_set ["alice"; "bob"; "charlie"; "dave"]%string /\
    balances = replay (chain bc) /\
    (forall g : Block, chain bc = [g] ->
     forall u : string, u ∈ users -> balances !! u = Some 0).
Proof.
  eexists. split; [apply calculate_balances_run|].
  destruct (foldl_body_replay (drop 1 (chain bc)) initial_balances)
    as [Heq Hdom].
  { rewrite initial_balances_zero. apply dom_zero_balances. }
  split; [exact Hdom|]. split.
  - rewrite Heq. unfold replay. by rewrite initial_balances_zero.
  - intros g Hg u Hu. rewrite Hg. simpl. rewrite initial_balances_zero.
    unfold zero_balances. rewrite lookup_gset_to_gmap.
    rewrite option_guard_True; [done|]. by apply elem_of_list_to_set.
Qed.

(** C7: [is_transaction_valid] never raises and leaves the chain as it was;
    it returns [True] when the (lower-cased) sender is [genesis] or
    [initial_balance]; otherwise it returns [True] if and only if the table
    of [calculate_balances] has an entry for the sender and that entry is at
    least the amount. *)
Theorem is_transaction_valid_iff (tx : Transaction) (bc : Blockchain) :
  exists (valid : bool) (balances : gmap string Z),
    is_transaction_valid tx bc = (Return valid, bc) /\
    calculate_balances bc = (Return balances, bc) /\
    (lower (sender tx) = "genesis"%string \/
     lower (sender tx) = "initial_balance"%string -> valid = true) /\
    (~ (lower (sender tx) = "genesis"%string \/
        lower (sender tx) = "initial_balance"%string) ->
     (valid = true <->
      exists v : Z,
        balances !! lower (sender tx) = Some v /\ v >= amount tx)).
Proof.
  forget_unnamed.
  unfold is_transaction_valid.
  set (balances := foldl calculate_balances_body initial_balances
                     (drop 1 (chain bc))).
  destruct (decide (lower (sender tx) = "genesis"%string)) as [Hg|Hg].
  { exists true, balances. split; [done|]. split; [done|]. tauto. }
  destruct (decide (lower (sender tx) = "initial_balance"%string)) as [Hi|Hi].
  { exists true, balances. split; [done|]. split; [done|]. tauto. }
  unfold bind. rewrite calculate_balances_run. fold balances.
  destruct (balances !! lower (sender tx)) as [v|] eqn:Hl.
  - destruct (decide (v >= amount tx)) as [Hge|Hlt].
    + exists true, balances. split; [done|]. split; [done|].
      split; [done|]. intros _. split; [eauto|done].
    + exists false, balances. split; [done|]. split; [done|].
      split; [tauto|]. intros _. split; [done|].
      intros (v' & Hv' & Hge). rewrite Hl in Hv'.
      injection Hv' as ->. lia.
  - exists false, balances. split; [done|]. split; [done|].
    split; [tauto|]. intros _. split; [done|]. intros (v' & Hv' & _).
    by rewrite Hl in Hv'.
Qed.

(** C9, as amended: for a block at a position [i > 0] whose transaction has
    (lower-cased) sender [genesis], [calculate_balances] debits nobody and
    adds the amount to the recipient's balance when the recipient is a known
    identity; the transaction has no effect at all when the recipient is not
    a known identity (as for genesis -> genesis) or the amount is 0. *)
Theorem genesis_sender_credits_recipient (uid : string)
    (pre post : list Block) (b : Block) :
  pre <> [] ->
  lower (sender (transaction b)) = "genesis"%string ->
  exists before : gmap string Z,
    calculate_balances (mkBlockchain uid pre) =
      (Return before, mkBlockchain uid pre) /\
    fst (calculate_balances (mkBlockchain uid (pre ++ [b]))) =
      Return (alter (fun v => v + amount (transaction b))
                (lower (recipient (transaction b))) before) /\
    (lower (recipient (transaction b)) ∉ users \/ amount (transaction b) = 0 ->
     fst (calculate_balances (mkBlockchain uid (pre ++ b :: post))) =
     fst (calculate_balances (mkBlockchain uid (pre ++ post)))).
Proof.
  intros Hpre Hs. destruct pre as [|g pre]; [done|].
  eexists. split; [apply calculate_balances_run|]. simpl.
  destruct (foldl_body_replay pre initial_balances) as [_ Hdom].
  { rewrite initial_balances_zero. apply dom_zero_balances. }
  split.
  - rewrite !drop_0, foldl_app. simpl.
    by rewrite calculate_balances_body_genesis.
  - intros Hnoop. rewrite !drop_0, !foldl_app. simpl.
    rewrite calculate_balances_body_genesis by done.
    rewrite alter_id; [done|]. intros x Hx.
    destruct Hnoop as [Hr|Ha]; [|lia].
    exfalso. apply Hr. apply (known_lookup _ _ Hdom). eauto.
Qed.

(** ** Admission of transactions and blocks *)

Lemma is_transaction_valid_total (tx : Transaction) (bc : Blockchain) :
  exists valid : bool, is_transaction_valid tx bc = (Return valid, bc).
Proof.
  unfold is_transaction_valid. repeat case_decide; eauto.
  unfold bind. rewrite calculate_balances_run.
  destruct (_ !! _); [case_decide|]; eauto.
Qed.

Lemma hash_Block_init (i t : Z) (tx : Transaction) (p : string) :
  hash (Block_init i t tx p) = calculate_hash (Block_init i t tx p).
Proof. reflexivity. Qed.

(** The three ways a call of [add_transaction] can end. *)
Lemma add_transaction_cases (s r : string) (a now : Z) (bc : Blockchain) :
  let tx := mkTransaction (lower s) (lower r) a in
  exists valid : bool,
    is_transaction_valid tx bc = (Return valid, bc) /\
    add_transaction s r a now bc =
    if valid then
      match last (chain bc) with
      | Some latest =>
          let b := Block_init (index latest + 1) now tx (hash latest) in
          (Return b, mkBlockchain (user_id bc) (chain bc ++ [b]))
      | None => (Raise IndexError, bc)
      end
    else (Raise InsufficientFunds, bc).
Proof.
  intros tx. destruct (is_transaction_valid_total tx bc) as [valid Hvalid].
  exists valid. split; [done|].
  unfold add_transaction, bind. fold tx. rewrite Hvalid.
  destruct valid; [|done]. cbn [negb].
  rewrite get_latest_block_run. by destruct (last (chain bc)).
Qed.

(** The two ways a call of [set_initial_balance] can end. *)
Lemma set_initial_balance_cases (balance now : Z) (bc : Blockchain) :
  set_initial_balance balance now bc =
  match last (chain bc) with
  | Some latest =>
      let tx := mkTransaction "initial_balance" (user_id bc) balance in
      let b := Block_init (index latest + 1) now tx (hash latest) in
      (Return None, mkBlockchain (user_id bc) (chain bc ++ [b]))
  | None => (Raise IndexError, bc)
  end.
Proof.
  unfold set_initial_balance, bind, get_user_id.
  rewrite get_latest_block_run. by destruct (last (chain bc)).
Qed.

Lemma last_nonempty {A : Type} (l : list A) :
  l <> [] -> exists x, last l = Some x.
Proof.
  intros Hl. destruct (last l) eqn:E; [eauto|]. by apply last_None in E.
Qed.

(** C2: on a non-empty chain [add_transaction] raises the
    insufficient-funds [ValueError] exactly when [is_transaction_valid]
    rejects the transaction it has built, and then the chain is unchanged;
    otherwise it appends one block, with index [last.index + 1] and
    [previous_hash = last.hash], returns that block, and the chain is one
    block longer. *)
Theorem add_transaction_admits (s r : string) (a now : Z) (bc : Blockchain) :
  chain bc <> [] ->
  exists (latest : Block) (valid : bool),
    last (chain bc) = Some latest /\
    is_transaction_valid (mkTransaction (lower s) (lower r) a) bc
      = (Return valid, bc) /\
    (fst (add_transaction s r a now bc) = Raise InsufficientFunds
     <-> valid = false) /\
    (valid = false -> snd (add_transaction s r a now bc) = bc) /\
    (valid = true ->
     exists b : Block,
       add_transaction s r a now bc =
         (Return b, mkBlockchain (user_id bc) (chain bc ++ [b])) /\
       index b = index latest + 1 /\
       previous_hash b = hash latest /\
       transaction b = mkTransaction (lower s) (lower r) a /\
       length (chain bc ++ [b]) = S (length (chain bc))).
Proof.
  intros Hne. destruct (last_nonempty _ Hne) as [latest Hlast].
  destruct (add_transaction_cases s r a now bc) as (valid & Hvalid & Hrun).
  exists latest, valid. rewrite Hrun, Hlast.
  split; [done|]. split; [done|].
  destruct valid; simpl.
  - split; [done|]. split; [done|]. intros _. eexists. split; [done|].
    simpl. rewrite length_app. simpl. split_and!; [done|done|done|lia].
  - done.
Qed.

(** How [add_block_from_peer] ends once it has appended a block with the
    timestamp [t]: the two calls that format [t] return, and so does the
    method, with [True], or the first of them raises. *)
Lemma log_appended_block_run (b : Block) (bc : Blockchain) :
  (let* _ := update_transaction_log b in
   let* _ := update_user_files b in
   ret true) bc
  = (match localtime_error (timestamp b) with
     | None => Return true
     | Some e => Raise e
     end, bc).
Proof.
  unfold bind, update_transaction_log, update_user_files, lift,
    strftime_localtime, calculate_balances, get_chain, ret, bind.
  by destruct (localtime_error (timestamp b)).
Qed.

(** The ways a call of [add_block_from_peer] can end. *)
Lemma add_block_from_peer_cases (d : BlockDict) (bc : Blockchain) :
  exists valid : bool,
    is_transaction_valid (d_transaction d) bc = (Return valid, bc) /\
    add_block_from_peer d bc =
    match last (chain bc) with
    | None =>
        (match localtime_error (d_timestamp d) with
         | None => Return true
         | Some e => Raise e
         end, mkBlockchain (user_id bc) [from_dict d])
    | Some latest =>
        if decide (d_index d = index latest + 1 /\
                   d_previous_hash d = hash latest /\ valid = true)
        then (match localtime_error (d_timestamp d) with
              | None => Return true
              | Some e => Raise e
              end, mkBlockchain (user_id bc) (chain bc ++ [from_dict d]))
        else (Return false, bc)
    end.
Proof.
  destruct (is_transaction_valid_total (d_transaction d) bc)
    as [valid Hvalid].
  exists valid. split; [done|].
  pose proof (log_appended_block_run (from_dict d)) as Hlog.
  destruct (last (chain bc)) as [latest|] eqn:Hlast.
  - assert (len (chain bc) > 0) as Hlen.
    { unfold len. destruct (chain bc); [done|simpl; lia]. }
    unfold add_block_from_peer, add_block_from_peer_verify.
    unfold bind at 1 2. unfold get_chain at 1.
    rewrite decide_True by done.
    unfold bind at 1. rewrite get_latest_block_run, Hlast.
    destruct (decide (index (from_dict d) <> index latest + 1)) as [Hi|Hi].
    { rewrite decide_False; [done|]. intros (? & _). done. }
    destruct (decide (previous_hash (from_dict d) <> hash latest))
      as [Hp|Hp].
    { rewrite decide_False; [done|]. intros (_ & ? & _). done. }
    unfold bind at 1. change (transaction (from_dict d)) with (d_transaction d).
    rewrite Hvalid. destruct valid; cbn [negb].
    + rewrite decide_True.
      * unfold ret at 1. unfold bind at 1. unfold chain_append at 1.
        by rewrite Hlog.
      * split_and!; [| |done].
        -- by destruct (decide (d_index d = index latest + 1)).
        -- by destruct (decide (d_previous_hash d = hash latest)).
    + rewrite decide_False; [done|]. by intros (_ & _ & ?).
  - apply last_None in Hlast.
    destruct bc as [uid c]. simpl in Hlast. subst c.
    unfold add_block_from_peer, add_block_from_peer_verify.
    unfold bind at 1 2. unfold get_chain at 1.
    rewrite decide_False by (unfold len; simpl; lia).
    unfold ret at 1. unfold bind at 1. unfold chain_append at 1.
    by rewrite Hlog.
Qed.



(** C8, as amended: on a non-empty chain, for every amount,
    [set_initial_balance] appends exactly one block, whose transaction has
    sender [initial_balance], recipient the node's own identity and the
    given amount, linked to the last block; it makes no balance check and
    never fails; it returns [None], the new block being the last of the
    chain. *)
Theorem set_initial_balance_appends (balance now : Z) (bc : Blockchain) :
  chain bc <> [] ->
  exists latest b : Block,
    last (chain bc) = Some latest /\
    set_initial_balance balance now bc =
      (Return None, mkBlockchain (user_id bc) (chain bc ++ [b])) /\
    transaction b = mkTransaction "initial_balance" (user_id bc) balance /\
    index b = index latest + 1 /\
    previous_hash b = hash latest /\
    last (chain bc ++ [b]) = Some b.
Proof.
  intros Hne. destruct (last_nonempty _ Hne) as [latest Hlast].
  exists latest. eexists. split; [done|].
  rewrite set_initial_balance_cases, Hlast. simpl.
  split; [done|]. by rewrite last_snoc.
Qed.

(** ** Chains built by the node itself *)

Lemma structurally_valid_singleton (g : Block) : structurally_valid [g].
Proof.
  intros i cur prev Hi Hcur. apply lookup_lt_Some in Hcur. simpl in Hcur. lia.
Qed.

(** Appending a block that stores its own hash and the hash of the last
    block keeps a chain structurally valid. *)
Lemma structurally_valid_snoc (c : list Block) (latest b : Block) :
  structurally_valid c ->
  last c = Some latest ->
  hash b = calculate_hash b ->
  previous_hash b = hash latest ->
  structurally_valid (c ++ [b]).
Proof.
  intros Hv Hlast Hh Hp i cur prev Hi Hcur Hprev.
  destruct (decide (i < length c)%nat) as [Hlt|Hge].
  - rewrite lookup_app_l in Hcur by done.
    rewrite lookup_app_l in Hprev by lia. by apply (Hv i).
  - pose proof (lookup_lt_Some _ _ _ Hcur) as Hi'.
    rewrite length_app in Hi'. simpl in Hi'.
    assert (i = length c) as -> by lia.
    rewrite list_lookup_middle in Hcur by done.
    rewrite lookup_app_l in Hprev by lia.
    rewrite last_lookup in Hlast.
    replace (pred (length c)) with (length c - 1)%nat in Hlast by lia.
    by simplify_eq.
Qed.

(** Every chain the node builds is non-empty and structurally valid. *)
Lemma produced_structurally_valid (bc : Blockchain) :
  produced bc -> chain bc <> [] /\ structurally_valid (chain bc).
Proof.
  induction 1 as [uid now|bc bc' s r a now b _ [Hne IH] Hrun
                 |bc bc' balance now v _ [Hne IH] Hrun].
  - split; [done|]. apply structurally_valid_singleton.
  - destruct (last_nonempty _ Hne) as [latest Hlast].
    destruct (add_transaction_cases s r a now bc) as (valid & _ & Hcases).
    rewrite Hrun, Hlast in Hcases. destruct valid; [|done].
    injection Hcases as -> ->. simpl. split.
    + by destruct (chain bc).
    + eapply structurally_valid_snoc; eauto using hash_Block_init.
  - destruct (last_nonempty _ Hne) as [latest Hlast].
    rewrite set_initial_balance_cases, Hlast in Hrun.
    injection Hrun as <- <-. simpl. split.
    + by destruct (chain bc).
    + eapply structurally_valid_snoc; eauto using hash_Block_init.
Qed.

(** C6: every chain obtained from a fresh genesis block by successful calls
    of [add_transaction] and [set_initial_balance] passes
    [is_chain_valid]. *)
Theorem produced_is_chain_valid (bc : Blockchain) :
  produced bc -> is_chain_valid bc = (Return true, bc).
Proof.
  intros Hp. apply produced_structurally_valid in Hp as [_ Hv].
  destruct (is_chain_valid_loop_range (chain bc)) as (b & Hb & Hspec).
  apply Hspec in Hv as ->.
  unfold is_chain_valid, bind, get_chain, lift. by rewrite Hb.
Qed.

(** ** The longest-chain rule *)

Lemma peer_chain_valid_loop_range (c : list Block) :
  exists b : bool,
    peer_chain_valid_loop c (range 1 (len c)) = Return b /\
    (b = true <-> structurally_valid c).
Proof.
  rewrite peer_chain_valid_loop_eq. apply is_chain_valid_loop_range.
Qed.

(** What the scan of the candidates computes: the scan never raises; the
    final [max_length] bounds the length of every valid candidate; and either
    nothing was selected, or the selected chain is a valid candidate whose
    length is the final [max_length], above the initial one. *)
Lemma resolve_conflicts_scan_spec (peer_chains : list (list BlockDict))
    (max_length : Z) (new_chain : option (list Block)) :
  exists (m : Z) (nc : option (list Block)),
    resolve_conflicts_scan peer_chains max_length new_chain = Return (m, nc) /\
    max_length <= m /\
    (forall d, d ∈ peer_chains ->
       structurally_valid (map from_dict d) -> len d <= m) /\
    ((m = max_length /\ nc = new_chain) \/
     (exists d, d ∈ peer_chains /\ structurally_valid (map from_dict d) /\
        len d = m /\ m > max_length /\ nc = Some (map from_dict d))).
Proof.
  revert max_length new_chain.
  induction peer_chains as [|d rest IH]; intros max_length new_chain; simpl.
  - exists max_length, new_chain. split; [done|]. split; [lia|].
    split; [|by left]. intros d Hd. by apply elem_of_nil in Hd.
  - rewrite len_map.
    destruct (decide (len d > max_length)) as [Hlonger|Hshort].
    + destruct (peer_chain_valid_loop_range (map from_dict d))
        as (valid & Hloop & Hvalid).
      rewrite len_map in Hloop. rewrite Hloop. simpl.
      destruct valid.
      * destruct (IH (len d) (Some (map from_dict d)))
          as (m & nc & Hscan & Hle & Hbound & Hsel).
        exists m, nc. split; [done|]. split; [lia|]. split.
        { intros d' Hd' Hv'. apply elem_of_cons in Hd' as [->|Hd'];
            [lia|by apply Hbound]. }
        right. destruct Hsel as [[-> ->]|(d' & Hd' & Hv' & Hl' & Hm & ->)].
        { exists d. split; [by left|]. split; [by apply Hvalid|]. done. }
        { exists d'. split; [by right|]. split; [done|]. split; [done|].
          split; [lia|done]. }
      * destruct (IH max_length new_chain)
          as (m & nc & Hscan & Hle & Hbound & Hsel).
        exists m, nc. split; [done|]. split; [done|]. split.
        { intros d' Hd' Hv'. apply elem_of_cons in Hd' as [->|Hd'];
            [|by apply Hbound]. apply Hvalid in Hv'. done. }
        destruct Hsel as [?|(d' & Hd' & ?)]; [by left|].
        right. exists d'. split; [by right|done].
    + destruct (IH max_length new_chain)
        as (m & nc & Hscan & Hle & Hbound & Hsel).
      exists m, nc. split; [done|]. split; [done|]. split.
      { intros d' Hd' Hv'. apply elem_of_cons in Hd' as [->|Hd'];
          [lia|by apply Hbound]. }
      destruct Hsel as [?|(d' & Hd' & ?)]; [by left|].
      right. exists d'. split; [by right|done].
Qed.

(** The loop of [update_all_user_files] returns when [time.localtime]
    accepts the timestamp of every block, and otherwise raises the error of
    the first timestamp it does not accept; it leaves the ledger alone. *)
Lemma update_all_user_files_loop_run (blocks : list Block)
    (bc : Blockchain) :
  (update_all_user_files_loop blocks bc = (Return tt, bc) /\
   forall b, b ∈ blocks -> localtime_error (timestamp b) = None) \/
  (exists (b : Block) (e : exn),
     b ∈ blocks /\ localtime_error (timestamp b) = Some e /\
     update_all_user_files_loop blocks bc = (Raise e, bc)).
Proof.
  induction blocks as [|b blocks IH]; simpl.
  - left. split; [done|]. intros b Hb. by apply elem_of_nil in Hb.
  - unfold bind, update_user_files, lift, strftime_localtime.
    destruct (localtime_error (timestamp b)) as [e|] eqn:Hb.
    + right. exists b, e. split; [by left|]. by split.
    + destruct IH as [[Hrun Hall]|(b' & e & Hin & Herr & Hrun)].
      * left. split; [done|]. intros b' Hin.
        apply elem_of_cons in Hin as [->|Hin]; [done|by apply Hall].
      * right. exists b', e. split; [by right|]. by split.
Qed.

(** How [resolve_conflicts] ends once it has replaced the chain by [c]. *)
Lemma adopt_chain_run (c : list Block) (bc : Blockchain) :
  let bc' := mkBlockchain (user_id bc) c in
  ((let* _ := set_chain c in
    let* _ := update_all_user_files in
    ret true) bc = (Return true, bc') /\
   forall b, b ∈ drop 1 c -> localtime_error (timestamp b) = None) \/
  (exists (b : Block) (e : exn),
     b ∈ drop 1 c /\ localtime_error (timestamp b) = Some e /\
     (let* _ := set_chain c in
      let* _ := update_all_user_files in
      ret true) bc = (Raise e, bc')).
Proof.
  intros bc'. unfold bind at 1 3. unfold set_chain at 1 2. fold bc'.
  unfold update_all_user_files, bind, get_chain. simpl.
  destruct (update_all_user_files_loop_run (drop 1 c) bc')
    as [[Hrun Hall]|(b & e & Hin & Herr & Hrun)]; rewrite Hrun.
  - by left.
  - right. by exists b, e.
Qed.


(** * Further properties of the ledger *)

Local Abbreviation get_balance := (get_balance lower).
Local Abbreviation Blockchain_from_dict :=
  (Blockchain_from_dict block_string sha256_hexdigest).
Local Abbreviation grown :=
  (grown lower block_string sha256_hexdigest localtime_error).
Local Abbreviation produced_nonneg :=
  (produced_nonneg lower block_string sha256_hexdigest).
Local Abbreviation balances_of c :=
  (foldl calculate_balances_body initial_balances (drop 1 c)).

(** ** Serialisation *)

Lemma from_dict_to_dict (b : Block) : from_dict (to_dict b) = b.
Proof. by destruct b. Qed.

Lemma to_dict_from_dict (d : BlockDict) : to_dict (from_dict d) = d.
Proof. by destruct d. Qed.

Lemma map_from_dict_to_dict (c : list Block) :
  map from_dict (map to_dict c) = c.
Proof.
  induction c as [|b c IH]; simpl; [done|].
  by rewrite from_dict_to_dict, IH.
Qed.

(** X1: [Block.from_dict] and [Block.to_dict] are inverse to each other.
    In particular [from_dict] keeps the hash stored in the [dict], also when
    it is not the hash of the other four fields. *)
Theorem block_dict_round_trip (b : Block) (d : BlockDict) :
  from_dict (to_dict b) = b /\
  to_dict (from_dict d) = d /\
  hash (from_dict d) = d_hash d.
Proof.
  split; [apply from_dict_to_dict|]. split; [apply to_dict_from_dict|done].
Qed.

(** X2: loading into any node the [dict] written by [Blockchain.to_dict]
    gives that node exactly the chain that was written, stored hashes
    included; [to_dict] leaves the node it reads unchanged, and the answers
    of [is_chain_valid] and [calculate_balances] are those of the node that
    wrote the [dict]. *)
Theorem blockchain_dict_round_trip (bc other : Blockchain) :
  exists blockchain_dict : list BlockDict,
    Blockchain_to_dict bc = (Return blockchain_dict, bc) /\
    Blockchain_from_dict blockchain_dict other
      = (Return tt, mkBlockchain (user_id other) (chain bc)) /\
    fst (is_chain_valid (mkBlockchain (user_id other) (chain bc)))
      = fst (is_chain_valid bc) /\
    fst (calculate_balances (mkBlockchain (user_id other) (chain bc)))
      = fst (calculate_balances bc).
Proof.
  exists (map to_dict (chain bc)). split; [done|]. split; [|done].
  unfold Blockchain_from_dict, set_chain. by rewrite map_from_dict_to_dict.
Qed.

(** ** Balances of single identities *)

(** X3: [get_balance] never raises and leaves the node unchanged; for a name
    that lower-cases to a known identity it returns that identity's entry of
    [calculate_balances], and for every other name it returns 0; without an
    argument it answers for the node's own [user_id]. *)
Theorem get_balance_lookup (user : option string) (bc : Blockchain) :
  exists (v : Z) (balances : gmap string Z),
    get_balance user bc = (Return v, bc) /\
    calculate_balances bc = (Return balances, bc) /\
    (lower (default (user_id bc) user) ∈ users ->
     balances !! lower (default (user_id bc) user) = Some v) /\
    (lower (default (user_id bc) user) ∉ users -> v = 0).
Proof.
  destruct (foldl_body_replay (drop 1 (chain bc)) initial_balances)
    as [_ Hdom].
  { rewrite initial_balances_zero. apply dom_zero_balances. }
  set (name := default (user_id bc) user).
  exists (default 0 (balances_of (chain bc) !! lower name)),
    (balances_of (chain bc)).
  split; [by destruct user|]. split; [done|].
  pose proof (known_lookup _ (lower name) Hdom) as Hk.
  split.
  - intros Hin. apply Hk in Hin as [v Hv]. by rewrite Hv.
  - intros Hnin. destruct (_ !! lower name) as [v|] eqn:Hv; [|done].
    exfalso. apply Hnin, Hk. eauto.
Qed.

(** ** The empty chain *)

(** X4: a node whose chain is empty cannot grow it by its own calls:
    [set_initial_balance] raises [IndexError]; [add_transaction] raises the
    insufficient-funds [ValueError] when the transaction is invalid and
    [IndexError] otherwise; the chain stays empty in every case. *)
Theorem empty_chain_raises (uid s r : string) (a now : Z) :
  set_initial_balance a now (mkBlockchain uid [])
    = (Raise IndexError, mkBlockchain uid []) /\
  exists valid : bool,
    is_transaction_valid (mkTransaction (lower s) (lower r) a)
      (mkBlockchain uid []) = (Return valid, mkBlockchain uid []) /\
    add_transaction s r a now (mkBlockchain uid [])
    = (Raise (if valid then IndexError else InsufficientFunds),
       mkBlockchain uid []).
Proof.
  split; [done|].
  destruct (add_transaction_cases s r a now (mkBlockchain uid []))
    as (valid & Hvalid & Hrun).
  exists valid. split; [done|]. rewrite Hrun. by destruct valid.
Qed.

(** ** Blocks travelling between nodes *)

Lemma is_transaction_valid_chain (tx : Transaction) (bc1 bc2 : Blockchain) :
  chain bc1 = chain bc2 ->
  fst (is_transaction_valid tx bc1) = fst (is_transaction_valid tx bc2).
Proof.
  intros Hc. unfold is_transaction_valid. repeat case_decide; try done.
  unfold bind. rewrite !calculate_balances_run, Hc.
  destruct (_ !! _); [case_decide|]; done.
Qed.

(** What a call of [add_block_from_peer] has done, read off its result:
    either it returned [False] and changed nothing, or it appended the
    block, after the index and link checks if the chain was not empty. *)
Lemma add_block_from_peer_inv (d : BlockDict) (bc bc' : Blockchain)
    (r : outcome bool) :
  add_block_from_peer d bc = (r, bc') ->
  (r = Return false /\ bc' = bc) \/
  (r <> Return false /\
   bc' = mkBlockchain (user_id bc) (chain bc ++ [from_dict d]) /\
   forall latest, last (chain bc) = Some latest ->
     d_index d = index latest + 1 /\ d_previous_hash d = hash latest).
Proof.
  intros Hrun.
  destruct (add_block_from_peer_cases d bc) as (valid & _ & Hcases).
  rewrite Hrun in Hcases.
  destruct (last (chain bc)) as [latest|] eqn:Hlast.
  - case_decide as Hchecks.
    + right. injection Hcases as -> ->.
      split; [by destruct (localtime_error _)|].
      split; [done|]. intros ? [= <-]. tauto.
    + left. by injection Hcases as -> ->.
  - right. injection Hcases as -> ->. apply last_None in Hlast.
    split; [by destruct (localtime_error _)|]. rewrite Hlast. by split.
Qed.

(** X5: a block built by a successful [add_transaction] on one node passes
    the checks of [add_block_from_peer] on every node that holds the chain
    the first node had before the call: it is appended, so that both nodes
    hold the same chain, and the call returns [True] when [time.localtime]
    accepts the block's timestamp, which is the [time.time()] of the first
    node. *)
Theorem add_transaction_block_accepted_by_peer (s r : string) (a now : Z)
    (bc1 bc1' bc2 : Blockchain) (b : Block) :
  add_transaction s r a now bc1 = (Return b, bc1') ->
  chain bc2 = chain bc1 ->
  add_block_from_peer (to_dict b) bc2
  = (match localtime_error now with
     | None => Return true
     | Some e => Raise e
     end, mkBlockchain (user_id bc2) (chain bc1')).
Proof.
  intros Hrun Hc.
  destruct (add_transaction_cases s r a now bc1) as (valid & Hvalid & Hcases).
  rewrite Hrun in Hcases. destruct valid; [|done].
  destruct (last (chain bc1)) as [latest|] eqn:Hlast; [|done].
  injection Hcases as -> ->. simpl.
  destruct (add_block_from_peer_cases
              (to_dict (Block_init (index latest + 1) now
                          (mkTransaction (lower s) (lower r) a)
                          (hash latest))) bc2)
    as (valid2 & Hvalid2 & Hpeer).
  rewrite Hpeer, Hc, Hlast. simpl.
  pose proof (is_transaction_valid_chain
                (mkTransaction (lower s) (lower r) a) bc2 bc1 Hc) as Heq.
  simpl in Hvalid2. rewrite Hvalid, Hvalid2 in Heq. simpl in Heq.
  injection Heq as ->. by rewrite decide_True.
Qed.

(** X6: when [str.lower] leaves ["initial_balance"] as it is, the block
    appended by [set_initial_balance], which the caller reads as
    [chain[-1]], passes the checks of [add_block_from_peer] on every node
    that holds the chain the first node had before the call: it is appended,
    so that both nodes hold the same chain, and the call returns [True] when
    [time.localtime] accepts the block's timestamp, which is the
    [time.time()] of the first node. *)
Theorem set_initial_balance_block_accepted_by_peer (balance now : Z)
    (bc1 bc1' bc2 : Blockchain) (v : option Block) :
  lower "initial_balance" = "initial_balance"%string ->
  set_initial_balance balance now bc1 = (Return v, bc1') ->
  chain bc2 = chain bc1 ->
  exists b : Block,
    last (chain bc1') = Some b /\
    add_block_from_peer (to_dict b) bc2
    = (match localtime_error now with
       | None => Return true
       | Some e => Raise e
       end, mkBlockchain (user_id bc2) (chain bc1')).
Proof.
  intros Hlower Hrun Hc. rewrite set_initial_balance_cases in Hrun.
  destruct (last (chain bc1)) as [latest|] eqn:Hlast; [|done].
  injection Hrun as <- <-. simpl. eexists. split; [apply last_snoc|].
  match goal with |- add_block_from_peer ?d _ = _ =>
    destruct (add_block_from_peer_cases d bc2) as (valid2 & Hvalid2 & Hpeer)
  end.
  rewrite Hpeer, Hc, Hlast. simpl.
  unfold is_transaction_valid in Hvalid2. simpl in Hvalid2.
  rewrite Hlower in Hvalid2. simpl in Hvalid2.
  injection Hvalid2 as <-. by rewrite decide_True.
Qed.

(** X7: a block that [add_block_from_peer] has just accepted is refused when
    it is delivered a second time, and the chain is then left as it is. *)
Theorem duplicate_block_rejected (d : BlockDict) (bc bc' : Blockchain) :
  add_block_from_peer d bc = (Return true, bc') ->
  add_block_from_peer d bc' = (Return false, bc').
Proof.
  intros Hfirst.
  assert (last (chain bc') = Some (from_dict d)) as Hlast.
  { apply add_block_from_peer_inv in Hfirst as [[? _]|(_ & -> & _)];
      [done|apply last_snoc]. }
  destruct (add_block_from_peer_cases d bc') as (valid & _ & Hcases).
  rewrite Hcases, Hlast. rewrite decide_False; [done|].
  intros (Hi & _). simpl in Hi. lia.
Qed.

(** ** What ingestion does and does not check *)

Lemma structurally_valid_snoc_inv (c : list Block) (latest b : Block) :
  last c = Some latest ->
  structurally_valid (c ++ [b]) ->
  hash b = calculate_hash b /\ previous_hash b = hash latest.
Proof.
  intros Hlast Hv. rewrite last_lookup in Hlast.
  assert (0 < length c)%nat as Hpos.
  { destruct c; [done|simpl; lia]. }
  apply (Hv (length c)); [done|by apply list_lookup_middle|].
  rewrite lookup_app_l by lia.
  by replace (length c - 1)%nat with (pred (length c)) by lia.
Qed.

Lemma is_chain_valid_run (bc : Blockchain) :
  exists b : bool,
    is_chain_valid bc = (Return b, bc) /\
    (b = true <-> structurally_valid (chain bc)).
Proof.
  destruct (is_chain_valid_loop_range (chain bc)) as (b & Hb & Hspec).
  exists b. split; [|done].
  unfold is_chain_valid, bind, get_chain, lift. by rewrite Hb.
Qed.

(** X8: [add_block_from_peer] does not compare the stored hash of the block
    with its recomputed hash.  On a non-empty chain that passes
    [is_chain_valid], the chain with an accepted block still passes it if
    and only if the block's stored hash is the hash of its fields. *)
Theorem accepted_block_valid_iff_hash (d : BlockDict) (bc bc' : Blockchain) :
  chain bc <> [] ->
  is_chain_valid bc = (Return true, bc) ->
  add_block_from_peer d bc = (Return true, bc') ->
  (is_chain_valid bc' = (Return true, bc')
   <-> d_hash d = calculate_hash (from_dict d)).
Proof.
  intros Hne Hvalid Haccept.
  destruct (last_nonempty _ Hne) as [latest Hlast].
  apply add_block_from_peer_inv in Haccept as [[? _]|(_ & -> & Hchecks)];
    [done|].
  destruct (Hchecks _ Hlast) as [_ Hprev].
  destruct (is_chain_valid_run bc) as (b0 & Hb0 & Hspec0).
  rewrite Hvalid in Hb0. injection Hb0 as <-.
  assert (structurally_valid (chain bc)) as Hv by by apply Hspec0.
  match goal with |- is_chain_valid ?x = _ <-> _ =>
    destruct (is_chain_valid_run x) as (b1 & Hb1 & Hspec1) end.
  rewrite Hb1. simpl in Hspec1. split.
  - intros [= ->].
    by destruct (structurally_valid_snoc_inv (chain bc) latest (from_dict d)
                   Hlast (proj1 Hspec1 eq_refl)).
  - intros Hh. f_equal. f_equal. apply Hspec1.
    by apply structurally_valid_snoc with latest.
Qed.

(** ** Invariants of the chains a node reaches *)

Lemma indexed_and_linked_snoc (c : list Block) (latest b : Block) :
  indexed_and_linked c ->
  last c = Some latest ->
  index b = index latest + 1 ->
  previous_hash b = hash latest ->
  indexed_and_linked (c ++ [b]).
Proof.
  intros [Hidx Hlink] Hlast Hi Hp.
  rewrite last_lookup in Hlast.
  assert (0 < length c)%nat as Hpos.
  { destruct c; [done|simpl; lia]. }
  split.
  - intros i x Hx.
    destruct (decide (i < length c)%nat) as [Hlt|Hge].
    + rewrite lookup_app_l in Hx by done. by apply Hidx.
    + pose proof (lookup_lt_Some _ _ _ Hx) as Hi'.
      rewrite length_app in Hi'. simpl in Hi'.
      assert (i = length c) as -> by lia.
      rewrite list_lookup_middle in Hx by done. injection Hx as <-.
      rewrite Hi. rewrite (Hidx _ _ Hlast). lia.
  - intros i cur prev Hi0 Hcur Hprev.
    destruct (decide (i < length c)%nat) as [Hlt|Hge].
    + rewrite lookup_app_l in Hcur by done.
      rewrite lookup_app_l in Hprev by lia. by apply (Hlink i).
    + pose proof (lookup_lt_Some _ _ _ Hcur) as Hi'.
      rewrite length_app in Hi'. simpl in Hi'.
      assert (i = length c) as -> by lia.
      rewrite list_lookup_middle in Hcur by done. injection Hcur as <-.
      rewrite lookup_app_l in Hprev by lia.
      replace (length c - 1)%nat with (pred (length c)) in Hprev by lia.
      rewrite Hlast in Hprev. by injection Hprev as <-.
Qed.

(** X9: in every chain a node reaches from a fresh genesis block, by its own
    [add_transaction] and [set_initial_balance] calls and by calls of
    [add_block_from_peer] (whether they return or raise after appending),
    the chain is not empty, the block at position [i] has index [i], and
    every block after the first has the hash of the block before it as
    [previous_hash]. *)
Theorem grown_indexed_and_linked (bc : Blockchain) :
  grown bc ->
  chain bc <> [] /\
  (forall (i : nat) (b : Block),
     chain bc !! i = Some b -> index b = Z.of_nat i) /\
  (forall (i : nat) (cur prev : Block),
     (0 < i)%nat ->
     chain bc !! i = Some cur -> chain bc !! (i - 1)%nat = Some prev ->
     previous_hash cur = hash prev).
Proof.
  intros Hg.
  cut (chain bc <> [] /\ indexed_and_linked (chain bc)); [by intros [? [? ?]]|].
  induction Hg as [uid now|bc bc' s r a now b _ [Hne IH] Hrun
                  |bc bc' balance now v _ [Hne IH] Hrun
                  |bc bc' d result _ [Hne IH] Hrun].
  - split; [done|]. split.
    + intros [|i] b Hb; simpl in Hb; [by injection Hb as <-|done].
    + intros i cur prev Hi Hcur. apply lookup_lt_Some in Hcur.
      simpl in Hcur. lia.
  - destruct (last_nonempty _ Hne) as [latest Hlast].
    destruct (add_transaction_cases s r a now bc) as (valid & _ & Hcases).
    rewrite Hrun, Hlast in Hcases. destruct valid; [|done].
    injection Hcases as -> ->. simpl. split; [by destruct (chain bc)|].
    by apply indexed_and_linked_snoc with latest.
  - destruct (last_nonempty _ Hne) as [latest Hlast].
    rewrite set_initial_balance_cases, Hlast in Hrun.
    injection Hrun as <- <-. simpl. split; [by destruct (chain bc)|].
    by apply indexed_and_linked_snoc with latest.
  - destruct (last_nonempty _ Hne) as [latest Hlast].
    apply add_block_from_peer_inv in Hrun as [[_ ->]|(_ & -> & Hchecks)];
      [done|].
    destruct (Hchecks _ Hlast) as [Hi Hp]. simpl.
    split; [by destruct (chain bc)|].
    by apply indexed_and_linked_snoc with latest.
Qed.

(** ** How a block changes the balances *)

Lemma dom_balances_of (c : list Block) :
  dom (balances_of c) = list_to_set users.
Proof.
  apply foldl_body_replay. rewrite initial_balances_zero.
  apply dom_zero_balances.
Qed.

(** After the first block, appending a block applies the loop body once
    more. *)
Lemma balances_of_snoc (c : list Block) (b : Block) :
  c <> [] ->
  balances_of (c ++ [b]) = calculate_balances_body (balances_of c) b.
Proof.
  intros Hne. destruct c as [|g c]; [done|]. simpl.
  rewrite !drop_0. by rewrite foldl_app.
Qed.

(** A transaction whose sender is not [initial_balance] subtracts the
    amount from the sender's entry and adds it to the recipient's; an entry
    that does not exist is not created. *)
Lemma calculate_balances_body_transfer (m : gmap string Z) (b : Block) :
  dom m = list_to_set users ->
  lower (sender (transaction b)) <> "initial_balance"%string ->
  calculate_balances_body m b =
  alter (fun v => v + amount (transaction b))
    (lower (recipient (transaction b)))
    (alter (fun v => v - amount (transaction b))
       (lower (sender (transaction b))) m).
Proof.
  intros Hdom Hs. rewrite calculate_balances_body_replay by done.
  unfold replay_transaction. rewrite decide_False by done.
  set (s := lower (sender (transaction b))).
  set (r := lower (recipient (transaction b))).
  set (a := amount (transaction b)).
  assert (forall (m' : gmap string Z) k f, dom m' = list_to_set users ->
            (if decide (k ∈ users) then alter f k m' else m') = alter f k m')
    as Hskip.
  { intros m' k f Hdom'. case_decide as Hk; [done|]. symmetry.
    apply alter_id. intros x Hx. exfalso. apply Hk.
    apply (known_lookup m' k Hdom'). eauto. }
  rewrite (Hskip m s) by done. apply Hskip. by rewrite dom_alter_L.
Qed.

(** An [initial_balance] transaction overwrites the entry of a known
    recipient. *)
Lemma calculate_balances_body_initial (m : gmap string Z) (b : Block) :
  dom m = list_to_set users ->
  lower (sender (transaction b)) = "initial_balance"%string ->
  calculate_balances_body m b =
  if decide (lower (recipient (transaction b)) ∈ users)
  then <[lower (recipient (transaction b)) := amount (transaction b)]> m
  else m.
Proof.
  intros Hdom Hs. rewrite calculate_balances_body_replay by done.
  unfold replay_transaction. by rewrite decide_True by done.
Qed.

(** What a positive answer of [is_transaction_valid] tells. *)
Lemma is_transaction_valid_true_inv (tx : Transaction) (bc : Blockchain) :
  is_transaction_valid tx bc = (Return true, bc) ->
  lower (sender tx) = "genesis"%string \/
  lower (sender tx) = "initial_balance"%string \/
  exists v : Z,
    balances_of (chain bc) !! lower (sender tx) = Some v /\ v >= amount tx.
Proof.
  unfold is_transaction_valid.
  destruct (decide (lower (sender tx) = "genesis"%string)); [by left|].
  destruct (decide (lower (sender tx) = "initial_balance"%string));
    [by right; left|].
  unfold bind. rewrite calculate_balances_run.
  destruct (_ !! lower (sender tx)) as [v|] eqn:Hv; [|done].
  case_decide; [|done]. intros _. right. right. eauto.
Qed.

(** What a successful [add_transaction] has done. *)
Lemma add_transaction_success_inv (s r : string) (a now : Z)
    (bc bc' : Blockchain) (b : Block) :
  add_transaction s r a now bc = (Return b, bc') ->
  exists latest : Block,
    last (chain bc) = Some latest /\
    is_transaction_valid (mkTransaction (lower s) (lower r) a) bc
      = (Return true, bc) /\
    b = Block_init (index latest + 1) now
          (mkTransaction (lower s) (lower r) a) (hash latest) /\
    bc' = mkBlockchain (user_id bc) (chain bc ++ [b]).
Proof.
  intros Hrun.
  destruct (add_transaction_cases s r a now bc) as (valid & Hvalid & Hcases).
  rewrite Hrun in Hcases. destruct valid; [|done].
  destruct (last (chain bc)) as [latest|] eqn:Hlast; [|done].
  injection Hcases as -> ->. by exists latest.
Qed.

(** X11: after a successful [add_transaction] whose (twice lower-cased)
    sender is not [initial_balance], the balances are those before the call
    with the amount subtracted from the sender's entry and added to the
    recipient's entry; the sender is [genesis] or had at least the amount. *)
Theorem add_transaction_moves_amount (s r : string) (a now : Z)
    (bc bc' : Blockchain) (b : Block) :
  add_transaction s r a now bc = (Return b, bc') ->
  lower (lower s) <> "initial_balance"%string ->
  exists before : gmap string Z,
    calculate_balances bc = (Return before, bc) /\
    calculate_balances bc' =
      (Return (alter (fun v => v + a) (lower (lower r))
                 (alter (fun v => v - a) (lower (lower s)) before)), bc') /\
    (lower (lower s) = "genesis"%string \/
     exists v : Z, before !! lower (lower s) = Some v /\ v >= a).
Proof.
  intros Hrun Hs.
  destruct (add_transaction_success_inv _ _ _ _ _ _ _ Hrun)
    as (latest & Hlast & Hvalid & -> & ->).
  exists (balances_of (chain bc)). split; [done|]. split.
  - rewrite calculate_balances_run. simpl. f_equal. f_equal.
    rewrite balances_of_snoc by (intros E; by rewrite E in Hlast).
    by rewrite calculate_balances_body_transfer by (done || apply dom_balances_of).
  - apply is_transaction_valid_true_inv in Hvalid as [?|[?|?]]; [by left|done|by right].
Qed.

(** The loop body keeps every entry non-negative when the amount is
    non-negative and the sender, if it has an entry and is debited, has at
    least the amount. *)
Lemma calculate_balances_body_nonneg (m : gmap string Z) (b : Block) :
  dom m = list_to_set users ->
  (forall u v, m !! u = Some v -> 0 <= v) ->
  0 <= amount (transaction b) ->
  (lower (sender (transaction b)) <> "initial_balance"%string ->
   forall v, m !! lower (sender (transaction b)) = Some v ->
             v >= amount (transaction b)) ->
  forall u v, calculate_balances_body m b !! u = Some v -> 0 <= v.
Proof.
  intros Hdom Hpos Ha Hfunds u v.
  destruct (decide (lower (sender (transaction b)) = "initial_balance"%string))
    as [Hs|Hs].
  - rewrite calculate_balances_body_initial by done.
    case_decide; [|by apply Hpos].
    rewrite lookup_insert. case_decide; [|by apply Hpos].
    intros [= <-]. done.
  - rewrite calculate_balances_body_transfer by done.
    specialize (Hfunds Hs). rewrite !lookup_alter.
    destruct (decide (lower (recipient (transaction b)) = u)) as [Hr|Hr].
    + destruct (decide (lower (sender (transaction b))
                        = lower (recipient (transaction b)))) as [Hsr|Hsr].
      * destruct (m !! lower (sender (transaction b))) as [x|] eqn:Hx;
          [|done]. simpl. intros [= <-].
        specialize (Hpos _ _ Hx). lia.
      * destruct (m !! lower (recipient (transaction b))) as [x|] eqn:Hx;
          [|done]. simpl. intros [= <-].
        specialize (Hpos _ _ Hx). lia.
    + destruct (decide (lower (sender (transaction b)) = u)) as [Hsu|Hsu].
      * destruct (m !! lower (sender (transaction b))) as [x|] eqn:Hx;
          [|done]. simpl. intros [= <-].
        specialize (Hfunds _ eq_refl). lia.
      * apply Hpos.
Qed.


(** X13: when [str.lower] leaves ["initial_balance"] as it is and the node's
    [user_id] lower-cases to a known identity, a successful
    [set_initial_balance] makes [get_balance()] return the given amount,
    whatever the balance was before, and leaves the other entries of the
    balance table as they were. *)
Theorem set_initial_balance_sets_balance (balance now : Z)
    (bc bc' : Blockchain) (v : option Block) :
  lower "initial_balance" = "initial_balance"%string ->
  lower (user_id bc) ∈ users ->
  set_initial_balance balance now bc = (Return v, bc') ->
  get_balance None bc' = (Return balance, bc') /\
  exists before : gmap string Z,
    calculate_balances bc = (Return before, bc) /\
    calculate_balances bc'
    = (Return (<[lower (user_id bc) := balance]> before), bc').
Proof.
  intros Hlower Hknown Hrun. rewrite set_initial_balance_cases in Hrun.
  destruct (last (chain bc)) as [latest|] eqn:Hlast; [|done].
  injection Hrun as <- <-.
  assert (chain bc <> []) as Hne by (intros E; by rewrite E in Hlast).
  match goal with |- context [chain bc ++ [?b]] => set (blk := b) end.
  assert (balances_of (chain bc ++ [blk])
          = <[lower (user_id bc) := balance]> (balances_of (chain bc)))
    as Hafter.
  { rewrite balances_of_snoc by done.
    rewrite calculate_balances_body_initial;
      [|apply dom_balances_of|exact Hlower].
    simpl. by rewrite decide_True. }
  split.
  - unfold get_balance, bind, get_user_id. rewrite calculate_balances_run.
    simpl. unfold ret. rewrite Hafter, lookup_insert_eq. done.
  - exists (balances_of (chain bc)). split; [done|].
    rewrite calculate_balances_run. simpl. by rewrite Hafter.
Qed.

(** ** The longest-chain rule, continued *)

(** X14: [resolve_conflicts] never makes the chain shorter, makes it
    strictly longer when it returns [True], and offered the same candidates
    a second time it returns [False] and changes nothing. *)
Theorem resolve_conflicts_never_shortens
    (peer_chains : list (list BlockDict)) (bc bc' : Blockchain)
    (replaced : bool) :
  resolve_conflicts peer_chains bc = (Return replaced, bc') ->
  len (chain bc) <= len (chain bc') /\
  (replaced = true -> len (chain bc) < len (chain bc')) /\
  resolve_conflicts peer_chains bc' = (Return false, bc').
Proof.
  intros Hrun.
  destruct (resolve_conflicts_scan_spec peer_chains (len (chain bc)) None)
    as (m & nc & Hscan & Hle & Hbound & Hsel).
  assert (len (chain bc') = m /\ len (chain bc) <= m /\
          (replaced = true -> len (chain bc) < m)) as (Hm & ? & ?).
  { unfold resolve_conflicts in Hrun. unfold bind at 1 2 in Hrun.
    unfold get_chain at 1 in Hrun. unfold lift at 1 in Hrun.
    rewrite Hscan in Hrun. cbn [snd] in Hrun.
    destruct Hsel as [[-> ->]|(d & Hd & Hv & Hl & Hm & ->)].
    - injection Hrun as <- <-. done.
    - destruct (map from_dict d) as [|x xs] eqn:Hmap.
      + injection Hrun as <- <-. apply (f_equal len) in Hmap.
        rewrite len_map in Hmap. unfold len in Hmap at 2. simpl in Hmap.
        pose proof (len_nonneg (chain bc)). lia.
      + destruct (adopt_chain_run (x :: xs) bc)
          as [[Hadopt _]|(b & e & _ & _ & Hadopt)];
          rewrite Hadopt in Hrun; [|done].
        injection Hrun as <- <-. cbn [chain]. rewrite <- Hmap, len_map.
        split; [done|]. split; lia. }
  split; [lia|]. split; [by rewrite Hm|].
  destruct (resolve_conflicts_scan_spec peer_chains (len (chain bc')) None)
    as (m2 & nc2 & Hscan2 & Hle2 & Hbound2 & Hsel2).
  unfold resolve_conflicts. unfold bind at 1 2. unfold get_chain at 1.
  unfold lift at 1. rewrite Hscan2. cbn [snd].
  destruct Hsel2 as [[-> ->]|(d & Hd & Hv & Hl & Hm2 & ->)]; [done|].
  specialize (Hbound d Hd Hv). lia.
Qed.

(** ** What validation does not look at *)

(** X15: [is_chain_valid] reads nothing of the first block but its stored
    hash: giving the first block any other index, timestamp, transaction and
    [previous_hash] does not change the answer; a chain of one block always
    passes. *)
Theorem is_chain_valid_ignores_first_block (uid : string) (g : Block)
    (rest : list Block) (i t : Z) (tx : Transaction) (p : string) :
  fst (is_chain_valid (mkBlockchain uid (mkBlock i t tx p (hash g) :: rest)))
  = fst (is_chain_valid (mkBlockchain uid (g :: rest))) /\
  fst (is_chain_valid (mkBlockchain uid [g])) = Return true.
Proof.
  split; [|done].
  destruct (is_chain_valid_run
              (mkBlockchain uid (mkBlock i t tx p (hash g) :: rest)))
    as (b1 & -> & H1).
  destruct (is_chain_valid_run (mkBlockchain uid (g :: rest)))
    as (b2 & -> & H2).
  simpl in *. f_equal.
  assert (forall g1 g2 : Block, hash g1 = hash g2 ->
            structurally_valid (g1 :: rest) ->
            structurally_valid (g2 :: rest)) as Hswap.
  { intros g1 g2 Hh Hv j cur prev Hj Hcur Hprev.
    destruct j as [|[|j]]; [lia| |].
    - simpl in Hprev. injection Hprev as <-.
      destruct (Hv 1%nat cur g1) as [? ?]; [lia|done|done|].
      split; [done|]. by rewrite <- Hh.
    - apply (Hv (S (S j))); [lia|done|done]. }
  destruct b1, b2; try done.
  - assert (false = true); [|done]. apply H2.
    apply (Hswap (mkBlock i t tx p (hash g))); [done|by apply H1].
  - assert (false = true); [|done]. apply H1.
    apply (Hswap g); [done|by apply H2].
Qed.

(** * Properties of the peer *)

Local Abbreviation BlockchainPeer_init :=
  (BlockchainPeer_init lower block_string sha256_hexdigest).
Local Abbreviation handle_handshake := (handle_handshake lower).
Local Abbreviation process_peer_message :=
  (process_peer_message lower block_string sha256_hexdigest localtime_error).
Local Abbreviation send_transaction :=
  (send_transaction lower block_string sha256_hexdigest).

(** ** Handling of messages *)

Lemma add_block_from_peer_total (d : BlockDict) (bc : Blockchain) :
  exists (r : outcome bool) (bc' : Blockchain),
    add_block_from_peer d bc = (r, bc') /\
    (r = Return false -> bc' = bc) /\
    (r <> Return false -> last (chain bc') = Some (from_dict d)).
Proof.
  destruct (add_block_from_peer d bc) as [r bc'] eqn:Hrun.
  exists r, bc'. split; [done|].
  apply add_block_from_peer_inv in Hrun as [[-> ->]|(Hr & -> & _)].
  - by split.
  - split; [done|]. intros _. apply last_snoc.
Qed.

Lemma accepted_then_refused (d : BlockDict) (bc : Blockchain) :
  last (chain bc) = Some (from_dict d) ->
  add_block_from_peer d bc = (Return false, bc).
Proof.
  intros Hlast. destruct (add_block_from_peer_cases d bc) as (valid & _ & ->).
  rewrite Hlast. rewrite decide_False; [done|].
  intros (Hi & _). simpl in Hi. lia.
Qed.

Lemma with_blockchain_same (self : BlockchainPeer) :
  with_blockchain self (blockchain self) = self.
Proof. by destruct self. Qed.


Lemma map_from_dict_nonempty (d : list BlockDict) (n : Z) :
  0 <= n -> len d > n -> exists b bs, map from_dict d = b :: bs.
Proof.
  intros Hn Hlen. destruct d as [|x d]; [|simpl; eauto].
  unfold len in Hlen. simpl in Hlen. lia.
Qed.

(** [resolve_conflicts] offered a single candidate. *)
Lemma resolve_conflicts_single (d : list BlockDict) (bc : Blockchain) :
  exists valid : bool,
    fst (is_chain_valid (mkBlockchain (user_id bc) (map from_dict d)))
      = Return valid /\
    resolve_conflicts [d] bc =
    if decide (len d > len (chain bc) /\ valid = true)
    then (let* _ := set_chain (map from_dict d) in
          let* _ := update_all_user_files in
          ret true) bc
    else (Return false, bc).
Proof.
  destruct (is_chain_valid_loop_range (map from_dict d))
    as (valid & Hloop & _).
  exists valid. split.
  { unfold is_chain_valid, bind, get_chain, lift. simpl. by rewrite Hloop. }
  unfold resolve_conflicts. unfold bind at 1 2. unfold get_chain at 1.
  unfold lift at 1. cbn [resolve_conflicts_scan]. rewrite len_map.
  destruct (decide (len d > len (chain bc))) as [Hlonger|Hshort].
  - rewrite peer_chain_valid_loop_eq. rewrite len_map in Hloop.
    rewrite Hloop. cbn [obind]. destruct valid; cbn [snd].
    + destruct (map_from_dict_nonempty d (len (chain bc)))
        as (b & bs & Hcons); [apply len_nonneg|done|].
      rewrite Hcons. by rewrite decide_True.
    + rewrite decide_False by (by intros [_ ?]). done.
  - cbn [snd]. rewrite decide_False by (by intros [? _]). done.
Qed.


(** ** Sending a payment *)

(** X21: [send_transaction] never raises a [ValueError]; it reports success
    only for a recipient that lower-cases to a known identity other than the
    node's own name, with an amount above 0 that [add_transaction] has
    admitted, and then the ledger is the one [add_transaction] left; in every
    other case the node is unchanged and nothing is sent. *)
Theorem send_transaction_guards (recipient_input : string)
    (amount_input : option Z) (now : Z) (send_ok : string -> bool)
    (self : BlockchainPeer) :
  let r := send_transaction recipient_input amount_input now send_ok self in
  (forall msg : string, fst (fst r) <> inl (LedgerError (ValueError msg))) /\
  (forall block : Block,
     fst (fst r) = inr (TransactionSuccessful block) ->
     lower recipient_input ∈ users /\
     lower recipient_input <> peer_user_id self /\
     exists amount : Z,
       amount_input = Some amount /\ amount > 0 /\
       add_transaction (peer_user_id self) (lower recipient_input) amount
         now (blockchain self)
       = (Return block, blockchain (snd (fst r)))) /\
  ((forall block : Block,
      fst (fst r) <> inr (TransactionSuccessful block)) ->
   snd (fst r) = self /\ snd r = []).
Proof.
  intros r. subst r. unfold send_transaction.
  destruct (decide (lower recipient_input ∉ users)) as [Hr|Hr];
    [by split_and!|].
  destruct (decide (lower recipient_input = peer_user_id self)) as [Hs|Hs];
    [by split_and!|].
  destruct amount_input as [amount|]; [|by split_and!].
  destruct (decide (amount <= 0)) as [Ha|Ha]; [by split_and!|].
  destruct (add_transaction_cases (peer_user_id self)
              (lower recipient_input) amount now (blockchain self))
    as (valid & _ & Hrun).
  rewrite Hrun. destruct valid.
  - destruct (last (chain (blockchain self))) as [latest|].
    + simpl. unfold broadcast_transaction. simpl.
      destruct (broadcast_loop _ _ _ _ _) as [connected sent]. simpl.
      split; [done|]. split.
      * intros block [= <-]. split; [by apply dec_stable|]. split; [done|].
        exists amount. split; [done|]. split; [lia|done].
      * intros Hno. by destruct (Hno _ eq_refl).
    + simpl. rewrite with_blockchain_same. by split_and!.
  - simpl. rewrite with_blockchain_same. by split_and!.
Qed.

(** ** The address table and the handshake *)

(** X16: when [str.lower] leaves the four names as they are, a peer created
    without an explicit port for a name that lower-cases to a known identity
    has in [peers] exactly the three other identities, each at host
    127.0.0.1 and at the port that identity's own peer listens on; for any
    other name the constructor raises [ValueError]. *)
Theorem peer_table_matches_ports (user_id : string) (now : Z) :
  (forall u : string, u ∈ users -> lower u = u) ->
  (lower user_id ∉ users ->
   BlockchainPeer_init user_id None now
   = Raise (ValueError ("Unknown user_id: " +:+ user_id))) /\
  (lower user_id ∈ users ->
   exists self : BlockchainPeer,
     BlockchainPeer_init user_id None now = Return self /\
     peer_user_id self = lower user_id /\
     connected_peers self = [] /\
     forall (name host : string) (p : Z),
       (name, (host, p)) ∈ peers self <->
       name ∈ users /\ name <> lower user_id /\
       host = "127.0.0.1"%string /\
       exists other : BlockchainPeer,
         BlockchainPeer_init name None now = Return other /\
         port other = p).
Proof.
  forget_unnamed.
  intros Hfix. split.
  - intros Hu. unfold BlockchainPeer_init. by rewrite assign_port_unknown.
  - intros Hu.
    assert (exists q, assign_port user_id (lower user_id) None = Return q)
      as [q Hq].
    { apply elem_of_users in Hu.
      destruct Hu as [-> | [-> | [-> | ->]]]; by eexists. }
    eexists. split; [unfold BlockchainPeer_init; by rewrite Hq|].
    split; [done|]. split; [done|].
    intros name host p. cbn [peers]. rewrite list_elem_of_filter.
    cbn [fst]. split.
    + intros [Hne Hin].
      pose proof Hin as Hin'. apply elem_of_all_peers in Hin' as [-> Hname].
      assert (name ∈ users) as Hname' by (apply elem_of_users; tauto).
      split; [done|]. split; [done|]. split; [done|].
      apply (assign_port_all_peers name) in Hin; [|done].
      unfold BlockchainPeer_init. rewrite (Hfix name Hname'), Hin.
      eexists. split; done.
    + intros (Hname & Hne & -> & other & Hother & Hp).
      split; [done|]. unfold BlockchainPeer_init in Hother.
      rewrite (Hfix name Hname) in Hother.
      destruct (assign_port name name None) as [q'|] eqn:Hq'; [|done].
      injection Hother as <-. cbn [port] in Hp. subst q'.
      by apply (assign_port_all_peers name).
Qed.

(** X17: a peer whose [peers] table is the one its constructor wrote
    answers a handshake with [connected] exactly when the name it receives
    lower-cases to a known identity other than its own; it then has that
    name in [connected_peers]; otherwise it answers [error] and registers
    nothing.  A missing or empty name is refused. *)
Theorem handshake_accepts_other_roster_members
    (peer_id_field : option string) (self : BlockchainPeer) :
  peers self
  = filter (fun entry => fst entry <> peer_user_id self) all_peers ->
  let peer_id := lower (default ""%string peer_id_field) in
  let r := handle_handshake peer_id_field self in
  (fst r = "connected"%string
   <-> peer_id ∈ users /\ peer_id <> peer_user_id self) /\
  (fst r = "connected"%string ->
   blockchain (snd r) = blockchain self /\
   forall p, p ∈ connected_peers (snd r)
             <-> p = peer_id \/ p ∈ connected_peers self) /\
  (fst r <> "connected"%string -> fst r = "error"%string /\ snd r = self).
Proof.
  intros Hpeers peer_id r. subst r. unfold handle_handshake.
  fold peer_id. rewrite Hpeers.
  pose proof (elem_of_peer_names (peer_user_id self) peer_id) as Hnames.
  case_decide as Hrefuse; simpl.
  - split; [|done]. split; [done|]. intros [Hu Hne]. exfalso.
    destruct Hrefuse as [He|Hn]; [|apply Hn, Hnames; by split].
    rewrite He in Hu. apply elem_of_users in Hu.
    destruct Hu as [?|[?|[?|?]]]; discriminate.
  - split; [|split; [|done]].
    + split; [intros _|done]. apply Hnames.
      apply dec_stable. intros Hn. apply Hrefuse. by right.
    + intros _. split; [done|]. intros p. unfold dict_set.
      case_decide as Hin.
      * split; [by right|]. by intros [->|?].
      * rewrite elem_of_app, list_elem_of_singleton.
        split; (intros [?|?]; [by right|by left]).
Qed.

End Properties.

(** * The properties on the example node *)

Lemma add_transaction_admits_witness :
  chain demo_funded <> [] /\
  add_transaction ascii_lower demo_block_string demo_digest
    "alice" "Bob" 200 1002 demo_funded
  = (Return demo_payment,
     mkBlockchain (user_id demo_funded) (chain demo_funded ++ [demo_payment])).
Proof.
  assert (chain demo_funded <> []) as Hne by (vm_compute; discriminate).
  split; [exact Hne|].
  destruct (add_transaction_admits ascii_lower demo_block_string demo_digest
              "alice" "Bob" 200 1002 demo_funded Hne)
    as (latest & valid & Hlast & Hvalid & _ & _ & Happend).
  vm_compute in Hvalid. injection Hvalid as <-.
  destruct (Happend eq_refl) as (b & Hrun & _).
  rewrite Hrun. vm_compute in Hrun. injection Hrun as <-. reflexivity.
Defined.


Lemma produced_is_chain_valid_witness :
  is_chain_valid demo_block_string demo_digest demo_sent
  = (Return true, demo_sent).
Proof.
  apply (produced_is_chain_valid ascii_lower).
  apply (produced_add_transaction ascii_lower demo_block_string demo_digest
           demo_funded demo_sent "alice" "Bob" 200 1002 demo_payment).
  - apply (produced_set_initial_balance ascii_lower demo_block_string
             demo_digest demo_genesis demo_funded 500 1001 None).
    + exact (produced_genesis ascii_lower demo_block_string demo_digest
               "Alice" 1000).
    + vm_compute. reflexivity.
  - vm_compute. reflexivity.
Defined.

Lemma set_initial_balance_appends_witness :
  chain demo_genesis <> [] /\
  exists b : Block,
    set_initial_balance demo_block_string demo_digest 500 1001 demo_genesis
    = (Return None,
       mkBlockchain (user_id demo_genesis) (chain demo_genesis ++ [b])).
Proof.
  assert (chain demo_genesis <> []) as Hne by (vm_compute; discriminate).
  split; [exact Hne|].
  destruct (set_initial_balance_appends demo_block_string demo_digest
              500 1001 demo_genesis Hne)
    as (latest & b & _ & Hrun & _).
  exists b. exact Hrun.
Defined.

(** C8: at a concrete call the value returned is [None], not a block. *)
Lemma set_initial_balance_returns_block_counterexample :
  chain demo_genesis <> [] /\
  fst (set_initial_balance demo_block_string demo_digest 500 1001
         demo_genesis) = Return None /\
  ~ (exists b : Block,
       fst (set_initial_balance demo_block_string demo_digest 500 1001
              demo_genesis) = Return (Some b)).
Proof.
  split; [vm_compute; discriminate|]. split; [reflexivity|].
  intros [b Hb]. vm_compute in Hb. discriminate.
Qed.

Lemma genesis_sender_credits_recipient_witness :
  fst (calculate_balances ascii_lower
         (mkBlockchain "alice"
            (chain demo_genesis ++ demo_regenesis :: [demo_payment]))) =
  fst (calculate_balances ascii_lower
         (mkBlockchain "alice" (chain demo_genesis ++ [demo_payment]))).
Proof.
  destruct (genesis_sender_credits_recipient ascii_lower "alice"
              (chain demo_genesis) [demo_payment] demo_regenesis)
    as (before & _ & _ & Hnoop).
  - vm_compute. discriminate.
  - reflexivity.
  - apply Hnoop. right. reflexivity.
Defined.

(** C9: a peer's block whose transaction is sent by [genesis] to alice is
    accepted after the genesis block, and it raises alice's balance from 0
    to 100. *)
Lemma genesis_sender_noop_counterexample :
  add_block_from_peer ascii_lower demo_block_string demo_digest
    demo_localtime_error demo_mint
    demo_genesis
  = (Return true,
     mkBlockchain "alice" (chain demo_genesis ++ [demo_mint_block])) /\
  chain demo_genesis <> [] /\
  ascii_lower (sender (transaction demo_mint_block)) = "genesis"%string /\
  alice_balance
    (fst (calculate_balances ascii_lower
            (mkBlockchain "alice" (chain demo_genesis ++ [demo_mint_block]))))
  = Some 100 /\
  alice_balance
    (fst (calculate_balances ascii_lower
            (mkBlockchain "alice" (chain demo_genesis ++ []))))
  = Some 0 /\
  fst (calculate_balances ascii_lower
         (mkBlockchain "alice" (chain demo_genesis ++ [demo_mint_block])))
  <> fst (calculate_balances ascii_lower
            (mkBlockchain "alice" (chain demo_genesis ++ []))).
Proof.
  split; [vm_compute; reflexivity|]. split; [vm_compute; discriminate|].
  split; [reflexivity|]. split; [vm_compute; reflexivity|].
  split; [vm_compute; reflexivity|].
  intros Heq. apply (f_equal alice_balance) in Heq.
  vm_compute in Heq. discriminate.
Qed.

(** ** The scenarios of the ledger on the example node *)

(** After [set_initial_balance(500)] by alice and a payment of 200 to bob,
    alice has 300, bob has 200 and the chain has three blocks. *)
Example balances_after_payment :
  exists balances : gmap string Z,
    fst (calculate_balances ascii_lower demo_sent) = Return balances /\
    balances !! "alice"%string = Some 300 /\
    balances !! "bob"%string = Some 200 /\
    length (chain demo_sent) = 3%nat.
Proof. eexists. split; [reflexivity|]. by vm_compute. Qed.

(** Bob, whose balance is 0, cannot pay 50: the call raises and the chain is
    as before. *)
Example payment_without_funds :
  add_transaction ascii_lower demo_block_string demo_digest
    "bob" "alice" 50 1003 demo_funded
  = (Raise InsufficientFunds, demo_funded).
Proof. by vm_compute. Qed.

(** A peer block whose index is the current last index is refused. *)
Example peer_block_with_stale_index :
  add_block_from_peer ascii_lower demo_block_string demo_digest
    demo_localtime_error
    demo_peer_block demo_funded
  = (Return false, demo_funded).
Proof. by vm_compute. Qed.

(** A peer block that follows the last block is accepted. *)
Example peer_block_accepted :
  add_block_from_peer ascii_lower demo_block_string demo_digest
    demo_localtime_error demo_peer_block demo_genesis
  = (Return true,
     mkBlockchain "alice"
       (chain demo_genesis
        ++ [from_dict demo_block_string demo_digest demo_peer_block])).
Proof. by vm_compute. Qed.

(** On an empty chain a block with the timestamp 10^20 is appended and the
    call raises [OverflowError]. *)
Example late_block_on_empty_chain :
  add_block_from_peer ascii_lower demo_block_string demo_digest
    demo_localtime_error demo_late_block (mkBlockchain "alice" [])
  = (Raise OverflowError,
     mkBlockchain "alice"
       [from_dict demo_block_string demo_digest demo_late_block]).
Proof. by vm_compute. Qed.

(** A longer, structurally valid candidate whose second block has the
    timestamp 10^20 replaces the chain, and the call raises
    [OverflowError]. *)
Example late_chain_adopted_then_raises :
  resolve_conflicts demo_block_string demo_digest demo_localtime_error
    [map to_dict (chain demo_genesis) ++ [demo_late_block]] demo_genesis
  = (Raise OverflowError,
     mkBlockchain "alice"
       (chain demo_genesis
        ++ [from_dict demo_block_string demo_digest demo_late_block])).
Proof. by vm_compute. Qed.

(** A valid candidate two blocks longer replaces the chain; a candidate
    whose link to the previous block is broken does not. *)
Example longer_valid_chain_adopted :
  resolve_conflicts demo_block_string demo_digest demo_localtime_error
    [map to_dict (chain demo_sent)] demo_genesis
  = (Return true, mkBlockchain "alice" (chain demo_sent)).
Proof. by vm_compute. Qed.

Example broken_link_chain_refused :
  resolve_conflicts demo_block_string demo_digest demo_localtime_error
    [map to_dict (chain demo_genesis ++ [demo_payment])] demo_genesis
  = (Return false, demo_genesis).
Proof. by vm_compute. Qed.

(** ** The further properties on the example node *)

Lemma add_transaction_block_accepted_by_peer_witness :
  add_block_from_peer ascii_lower demo_block_string demo_digest
    demo_localtime_error
    (to_dict demo_payment) demo_bob_funded
  = (Return true, mkBlockchain "bob" (chain demo_sent)).
Proof.
  apply (add_transaction_block_accepted_by_peer ascii_lower
           demo_block_string demo_digest demo_localtime_error "alice" "Bob" 200 1002
           demo_funded demo_sent demo_bob_funded demo_payment).
  - vm_compute. reflexivity.
  - reflexivity.
Defined.

Lemma set_initial_balance_block_accepted_by_peer_witness :
  exists b : Block,
    last (chain demo_funded) = Some b /\
    add_block_from_peer ascii_lower demo_block_string demo_digest
    demo_localtime_error
      (to_dict b) demo_bob_genesis
    = (Return true, mkBlockchain "bob" (chain demo_funded)).
Proof.
  apply (set_initial_balance_block_accepted_by_peer ascii_lower
           demo_block_string demo_digest demo_localtime_error 500 1001
           demo_genesis demo_funded demo_bob_genesis None).
  - reflexivity.
  - vm_compute. reflexivity.
  - reflexivity.
Defined.

Lemma duplicate_block_rejected_witness :
  add_block_from_peer ascii_lower demo_block_string demo_digest
    demo_localtime_error
    demo_peer_block demo_received
  = (Return false, demo_received).
Proof.
  apply (duplicate_block_rejected ascii_lower demo_block_string demo_digest demo_localtime_error
           demo_peer_block demo_genesis demo_received).
  vm_compute. reflexivity.
Defined.

Lemma accepted_block_valid_iff_hash_witness :
  is_chain_valid demo_block_string demo_digest demo_received
    = (Return true, demo_received)
  <-> d_hash demo_peer_block
      = calculate_hash demo_block_string demo_digest
          (from_dict demo_block_string demo_digest demo_peer_block).
Proof.
  apply (accepted_block_valid_iff_hash ascii_lower demo_block_string
           demo_digest demo_localtime_error demo_peer_block demo_genesis demo_received).
  - vm_compute. discriminate.
  - vm_compute. reflexivity.
  - vm_compute. reflexivity.
Defined.

Lemma grown_indexed_and_linked_witness :
  chain demo_received <> [] /\
  (forall (i : nat) (b : Block),
     chain demo_received !! i = Some b -> index b = Z.of_nat i) /\
  (forall (i : nat) (cur prev : Block),
     (0 < i)%nat ->
     chain demo_received !! i = Some cur ->
     chain demo_received !! (i - 1)%nat = Some prev ->
     previous_hash cur = hash prev).
Proof.
  apply (grown_indexed_and_linked ascii_lower demo_block_string demo_digest
           demo_localtime_error).
  apply (grown_add_block_from_peer ascii_lower demo_block_string demo_digest
           demo_localtime_error demo_genesis demo_received demo_peer_block
           (Return true)).
  - exact (grown_genesis ascii_lower demo_block_string demo_digest
             demo_localtime_error "Alice" 1000).
  - vm_compute. reflexivity.
Defined.


Lemma add_transaction_moves_amount_witness :
  exists before : gmap string Z,
    calculate_balances ascii_lower demo_funded = (Return before, demo_funded) /\
    calculate_balances ascii_lower demo_sent =
      (Return (alter (fun v => v + 200) (ascii_lower (ascii_lower "Bob"))
                 (alter (fun v => v - 200)
                    (ascii_lower (ascii_lower "alice")) before)),
       demo_sent) /\
    (ascii_lower (ascii_lower "alice") = "genesis"%string \/
     exists v : Z,
       before !! ascii_lower (ascii_lower "alice") = Some v /\ v >= 200).
Proof.
  apply (add_transaction_moves_amount ascii_lower demo_block_string
           demo_digest "alice" "Bob" 200 1002 demo_funded demo_sent
           demo_payment).
  - vm_compute. reflexivity.
  - vm_compute. discriminate.
Defined.

Lemma set_initial_balance_sets_balance_witness :
  get_balance ascii_lower None demo_funded = (Return 500, demo_funded) /\
  exists before : gmap string Z,
    calculate_balances ascii_lower demo_genesis
      = (Return before, demo_genesis) /\
    calculate_balances ascii_lower demo_funded
    = (Return (<[ascii_lower (user_id demo_genesis) := 500]> before),
       demo_funded).
Proof.
  apply (set_initial_balance_sets_balance ascii_lower demo_block_string
           demo_digest 500 1001 demo_genesis demo_funded None).
  - reflexivity.
  - vm_compute. repeat constructor.
  - vm_compute. reflexivity.
Defined.

Lemma resolve_conflicts_never_shortens_witness :
  len (chain demo_genesis) <= len (chain demo_sent) /\
  (true = true -> len (chain demo_genesis) < len (chain demo_sent)) /\
  resolve_conflicts demo_block_string demo_digest demo_localtime_error
    [map to_dict (chain demo_sent)] (mkBlockchain "alice" (chain demo_sent))
  = (Return false, mkBlockchain "alice" (chain demo_sent)).
Proof.
  apply (resolve_conflicts_never_shortens demo_block_string demo_digest
           demo_localtime_error
           [map to_dict (chain demo_sent)] demo_genesis
           (mkBlockchain "alice" (chain demo_sent)) true).
  vm_compute. reflexivity.
Defined.

Lemma ascii_lower_users (u : string) : u ∈ users -> ascii_lower u = u.
Proof.
  unfold users. rewrite !elem_of_cons, elem_of_nil.
  intros [-> | [-> | [-> | [-> | Hu]]]]; [reflexivity..|destruct Hu].
Qed.

Lemma peer_table_matches_ports_witness :
  exists self : BlockchainPeer,
    BlockchainPeer_init ascii_lower demo_block_string demo_digest
      "Alice" None 1000 = Return self /\
    peer_user_id self = ascii_lower "Alice" /\
    connected_peers self = [] /\
    forall (name host : string) (p : Z),
      (name, (host, p)) ∈ peers self <->
      name ∈ users /\ name <> ascii_lower "Alice" /\
      host = "127.0.0.1"%string /\
      exists other : BlockchainPeer,
        BlockchainPeer_init ascii_lower demo_block_string demo_digest
          name None 1000 = Return other /\
        port other = p.
Proof.
  apply (proj2 (peer_table_matches_ports ascii_lower demo_block_string
                  demo_digest "Alice" 1000 ascii_lower_users)).
  vm_compute. repeat constructor.
Defined.

Lemma handshake_accepts_other_roster_members_witness :
  fst (handle_handshake ascii_lower (Some "Bob"%string) demo_peer)
  = "connected"%string.
Proof.
  destruct (handshake_accepts_other_roster_members ascii_lower
              (Some "Bob"%string) demo_peer eq_refl) as [Hiff _].
  apply Hiff. split.
  - vm_compute. repeat constructor.
  - vm_compute. discriminate.
Defined.

Lemma broadcast_transaction_delivery_witness :
  NoDup (fst <$> snd (broadcast_transaction demo_peer_block (Some "bob"%string)
                        (fun _ => true) demo_peer)).
Proof.
  destruct (broadcast_transaction_delivery demo_peer_block
              (Some "bob"%string) (fun _ => true) demo_peer)
    as (_ & Hnd & _).
  - vm_compute. repeat (apply NoDup_cons; split;
      [rewrite ?elem_of_cons, elem_of_nil; intuition discriminate|]).
    apply NoDup_nil_2.
  - exact Hnd.
Defined.
